(** * Mass-spring time stepper: [SimTimeStep] of project4.js

    A shallow embedding of the simulation step of
    [src/project3_TriangularMeshes/project4.js] (lines 419-489) and the
    properties its specification states about it.

    The step is written once, over an abstract number type, in a small
    state-and-exception monad that follows the JavaScript statement by
    statement.  It is then read in two number systems:
    - the real numbers, where the algebraic properties are proved;
    - binary64 floating point, which is what a JavaScript engine
      computes with, where the scenarios of the specification are run.

    The other pure functions of the sources follow: [GetTransform] and
    [ApplyTransform] of [src/project2_Transformations/project2.js], and
    [GetModelViewProjection], [GetModelViewMatrix] and [composite] of
    project4.js. *)

From Stdlib Require Import Reals Lra Psatz RNsatz ZArith List Permutation.
From Stdlib Require Floats.PrimFloat.
From Corelib Require FloatAxioms SpecFloat FloatOps.
From stdpp Require Import base option list.

(** ** Numbers *)

(** The arithmetic the step uses on JavaScript numbers: [+ - * /], unary
    minus, [Math.sqrt], the comparison [<] ([a > b] is [b < a]) and the
    literals [0] and [1]. *)
Class Number (A : Type) : Type := {
  nzero : A;
  none : A;
  nadd : A -> A -> A;
  nsub : A -> A -> A;
  nmul : A -> A -> A;
  ndiv : A -> A -> A;
  nneg : A -> A;
  nsqrt : A -> A;
  nltb : A -> A -> bool;
  neqb : A -> A -> bool
}.

Declare Scope num_scope.
Delimit Scope num_scope with num.
Infix "+" := nadd : num_scope.
Infix "-" := nsub : num_scope.
Infix "*" := nmul : num_scope.
Infix "/" := ndiv : num_scope.
Notation "- a" := (nneg a) : num_scope.
Infix "<?" := nltb : num_scope.
Notation "a >? b" := (nltb b a) : num_scope.

(** ** Vectors *)

Module Vec3.
Section Ops.
Context {A : Type} `{Number A}.
Local Open Scope num_scope.

(** Modelled from the spec: the class [Vec3] (the vector objects held in
    [positions], [velocities] and [gravity]) is not part of the sources;
    section 9 of the specification describes it as a 3-element numeric
    tuple with fields [x], [y], [z]. *)
Record t : Type := mk { x : A; y : A; z : A }.

(** Modelled from the spec: [Vec3.add], componentwise sum, a new value. *)
Definition add (a b : t) : t := mk (x a + x b) (y a + y b) (z a + z b).

(** Modelled from the spec: [Vec3.sub], componentwise difference
    ([d = pos[p1] - pos[p0]]). *)
Definition sub (a b : t) : t := mk (x a - x b) (y a - y b) (z a - z b).

(** Modelled from the spec: [Vec3.mul], product with a scalar
    ([gravity * particleMass]). *)
Definition mul (a : t) (f : A) : t := mk (x a * f) (y a * f) (z a * f).

(** Modelled from the spec: [Vec3.div], quotient by a scalar
    ([force / particleMass]). *)
Definition div (a : t) (f : A) : t := mk (x a / f) (y a / f) (z a / f).

(** Modelled from the spec: [Vec3.dot], the dot product. *)
Definition dot (a b : t) : A := x a * x b + y a * y b + z a * z b.

(** Modelled from the spec: [Vec3.len], the Euclidean length [|d|]. *)
Definition len (a : t) : A := nsqrt (dot a a).

Definition zero : t := mk nzero nzero nzero.

(** Modelled from the spec: [Vec3.unit].  Section 4.1: [dir = d / L] when
    [L > 0], and when [L == 0] the unit direction is the zero vector. *)
Definition unit (a : t) : t :=
  let L := len a in
  if neqb L nzero then zero else div a L.

(** Modelled from the spec: [Vec3.inc], the in-place [+=]; the object it
    is called on is replaced by the returned value. *)
Definition inc (a v : t) : t := mk (x a + x v) (y a + y v) (z a + z v).

(** Modelled from the spec: [Vec3.dec], the in-place [-=]. *)
Definition dec (a v : t) : t := mk (x a - x v) (y a - y v) (z a - z v).

(** The property names the collision loop iterates over:
    [for (let dim of ["x", "y", "z"])]. *)
Inductive dim : Type := dx | dy | dz.

(** [v[dim]] *)
Definition get (d : dim) (v : t) : A :=
  match d with dx => x v | dy => y v | dz => z v end.

(** [v[dim] = a] *)
Definition set (d : dim) (a : A) (v : t) : t :=
  match d with
  | dx => mk a (y v) (z v)
  | dy => mk (x v) a (z v)
  | dz => mk (x v) (y v) a
  end.
End Ops.
Arguments t A : clear implicits.
End Vec3.

(** ** Springs and the state of a call *)

Section Model.
Context {A : Type} `{Number A}.
Local Open Scope num_scope.

(** A spring record as the step reads it: [spring.p0], [spring.p1],
    [spring.rest].  The two indices are array indices; an index past the
    end of an array reads [undefined]. *)
Record Spring : Type := mkSpring { p0 : nat; p1 : nat; rest : A }.

(** The objects a call can reach: the caller's three arrays and the local
    array [forces].  The vectors held in the arrays are distinct objects,
    so an update of one element leaves the others. *)
Record Sim : Type := mkSim {
  positions : list (Vec3.t A);
  velocities : list (Vec3.t A);
  springs : list Spring;
  forces : list (Vec3.t A)
}.

(** A statement either completes, with a value and the state it leaves,
    or throws (a [TypeError], the only exception the step can raise),
    with the state at the throw. *)
Inductive Res (T : Type) : Type :=
| Ret (v : T) (s : Sim)
| Throw (s : Sim).
Arguments Ret {T} v s.
Arguments Throw {T} s.

Definition M (T : Type) : Type := Sim -> Res T.

Definition ret {T} (v : T) : M T := fun s => Ret v s.

Definition bind {T U} (m : M T) (k : T -> M U) : M U :=
  fun s => match m s with
           | Ret v s' => k v s'
           | Throw s' => Throw s'
           end.

Definition throw {T} : M T := fun s => Throw s.

Definition gets {T} (f : Sim -> T) : M T := fun s => Ret (f s) s.

Definition modify (f : Sim -> Sim) : M unit := fun s => Ret tt (f s).

(** The monad provides stdpp's notations [x ← m; k] and [m;; k]. *)
#[export] Instance M_ret : MRet M := @ret.
#[export] Instance M_bind : MBind M := fun T U k m => bind m k.

(** [for (let a of l) body] *)
Fixpoint forEach {T} (l : list T) (body : T -> M unit) : M unit :=
  match l with
  | [] => ret tt
  | a :: l' => body a;; forEach l' body
  end.

(** Using an array element as an object: [undefined] has no properties,
    so a method call on it, or a read of its fields, throws. *)
Definition deref {T} (o : option T) : M T :=
  match o with
  | Some v => ret v
  | None => throw
  end.

Definition setForces (fs : list (Vec3.t A)) : M unit :=
  modify (fun s => mkSim (positions s) (velocities s) (springs s) fs).

(** [forces[i].inc(f)] and [forces[j].dec(f)]: the object stored at the
    index is updated in place. *)
Definition updForce (i : nat) (g : Vec3.t A -> Vec3.t A) : M unit :=
  o ← gets (fun s => forces s !! i);
  v ← deref o;
  modify (fun s =>
    mkSim (positions s) (velocities s) (springs s) (<[i := g v]> (forces s))).

Definition updVelocity (i : nat) (g : Vec3.t A -> Vec3.t A) : M unit :=
  o ← gets (fun s => velocities s !! i);
  v ← deref o;
  modify (fun s =>
    mkSim (positions s) (<[i := g v]> (velocities s)) (springs s) (forces s)).

Definition updPosition (i : nat) (g : Vec3.t A -> Vec3.t A) : M unit :=
  o ← gets (fun s => positions s !! i);
  v ← deref o;
  modify (fun s =>
    mkSim (<[i := g v]> (positions s)) (velocities s) (springs s) (forces s)).

(** The force one spring exerts, lines 448-459: [f = fs + fd] from the
    endpoint positions [pi], [pj] and velocities [vi], [vj]. *)
Definition springForce (stiffness damping : A) (pi pj vi vj : Vec3.t A)
    (restLen : A) : Vec3.t A :=
  let d := Vec3.sub pj pi in
  let L := Vec3.len d in
  let dir := Vec3.unit d in
  let fs := Vec3.mul dir (stiffness * (L - restLen)) in
  let vRel := Vec3.sub vj vi in
  let fd := Vec3.mul dir (damping * Vec3.dot vRel dir) in
  Vec3.add fs fd.

(** Body of loop 2, lines 440-462. *)
Definition springStep (stiffness damping : A) (spring : Spring) : M unit :=
  let i := p0 spring in
  let j := p1 spring in
  opi ← gets (fun s => positions s !! i);
  opj ← gets (fun s => positions s !! j);
  ovi ← gets (fun s => velocities s !! i);
  ovj ← gets (fun s => velocities s !! j);
  pj ← deref opj;
  pi ← deref opi;
  vj ← deref ovj;
  vi ← deref ovi;
  let f := springForce stiffness damping pi pj vi vj (rest spring) in
  updForce i (fun F => Vec3.inc F f);;
  updForce j (fun F => Vec3.dec F f).

(** Body of loop 3, lines 467-469. *)
Definition integrateStep (dt particleMass : A) (i : nat) : M unit :=
  oF ← gets (fun s => forces s !! i);
  F ← deref oF;
  let acc := Vec3.div F particleMass in
  updVelocity i (fun v => Vec3.inc v (Vec3.mul acc dt));;
  ov ← gets (fun s => velocities s !! i);
  v ← deref ov;
  updPosition i (fun p => Vec3.inc p (Vec3.mul v dt)).

(** The inner loop of loop 4, lines 475-486, for one particle and one
    axis, is two consecutive [if] statements.  The first, lines 475-480: *)
Definition clampBelow (restitution : A) (i : nat) (d : Vec3.dim) : M unit :=
  op ← gets (fun s => positions s !! i);
  p ← deref op;
  if Vec3.get d p <? - none then
    updPosition i (Vec3.set d (- none));;
    ov ← gets (fun s => velocities s !! i);
    v ← deref ov;
    if Vec3.get d v <? nzero then
      updVelocity i (Vec3.set d (- Vec3.get d v * restitution))
    else ret tt
  else ret tt.

(** The second, lines 481-486; it reads the position the first may have
    written. *)
Definition clampAbove (restitution : A) (i : nat) (d : Vec3.dim) : M unit :=
  op ← gets (fun s => positions s !! i);
  p ← deref op;
  if Vec3.get d p >? none then
    updPosition i (Vec3.set d none);;
    ov ← gets (fun s => velocities s !! i);
    v ← deref ov;
    if Vec3.get d v >? nzero then
      updVelocity i (Vec3.set d (- Vec3.get d v * restitution))
    else ret tt
  else ret tt.

Definition collideAxis (restitution : A) (i : nat) (d : Vec3.dim) : M unit :=
  clampBelow restitution i d;;
  clampAbove restitution i d.

Definition collideStep (restitution : A) (i : nat) : M unit :=
  forEach [Vec3.dx; Vec3.dy; Vec3.dz] (collideAxis restitution i).

(** The body of [SimTimeStep], lines 430-488, on the state of the call. *)
Definition stepBody (dt stiffness damping particleMass : A)
    (gravity : Vec3.t A) (restitution : A) : M unit :=
  numParticles ← gets (fun s => length (positions s));
  (* 1. Initialize forces with gravity: one new vector per particle *)
  setForces (replicate numParticles (Vec3.mul gravity particleMass));;
  (* 2. Apply spring forces and damping *)
  sps ← gets springs;
  forEach sps (springStep stiffness damping);;
  (* 3. Update velocities and positions (semi-implicit Euler) *)
  forEach (seq 0 numParticles) (integrateStep dt particleMass);;
  (* 4. Handle collisions with bounding box *)
  forEach (seq 0 numParticles) (collideStep restitution).

(** [SimTimeStep(dt, positions, velocities, springs, stiffness, damping,
    particleMass, gravity, restitution)]. *)
Definition SimTimeStep (dt : A) (positions0 velocities0 : list (Vec3.t A))
    (springs0 : list Spring) (stiffness damping particleMass : A)
    (gravity : Vec3.t A) (restitution : A) : Res unit :=
  stepBody dt stiffness damping particleMass gravity restitution
    (mkSim positions0 velocities0 springs0 []).

(** What the caller sees after the call. *)
Definition finalState {T} (r : Res T) : Sim :=
  match r with Ret _ s => s | Throw s => s end.

Definition completes {T} (r : Res T) : bool :=
  match r with Ret _ _ => true | Throw _ => false end.
End Model.

Arguments Spring A : clear implicits.
Arguments Sim A : clear implicits.
Arguments Res A T : clear implicits.
Arguments M A T : clear implicits.
Arguments Ret {A T} v s.
Arguments Throw {A T} s.
Arguments mkSpring {A} p0 p1 rest.
Arguments mkSim {A} positions velocities springs forces.

(** ** The two number systems *)

(** Real numbers: comparison and equality are decided classically. *)
Definition Rltb (a b : R) : bool := if Rlt_dec a b then true else false.
Definition Reqb (a b : R) : bool := if Req_dec_T a b then true else false.

#[export] Instance R_number : Number R := {|
  nzero := 0%R;
  none := 1%R;
  nadd := Rplus;
  nsub := Rminus;
  nmul := Rmult;
  ndiv := Rdiv;
  nneg := Ropp;
  nsqrt := sqrt;
  nltb := Rltb;
  neqb := Reqb
|}.

(** binary64, the numbers of a JavaScript engine. *)
#[export] Instance float_number : Number PrimFloat.float := {|
  nzero := PrimFloat.zero;
  none := PrimFloat.one;
  nadd := PrimFloat.add;
  nsub := PrimFloat.sub;
  nmul := PrimFloat.mul;
  ndiv := PrimFloat.div;
  nneg := PrimFloat.opp;
  nsqrt := PrimFloat.sqrt;
  nltb := PrimFloat.ltb;
  neqb := PrimFloat.eqb
|}.

(** ** The step as a function on lists *)

Section Pure.
Context {A : Type} `{Number A}.
Local Open Scope num_scope.

(** A spring can be processed when both endpoints have a position, a
    velocity and a force accumulator. *)
Definition springOk (pos vel F : list (Vec3.t A)) (sp : Spring A) : Prop :=
  (p0 sp < length pos)%nat /\ (p1 sp < length pos)%nat /\
  (p0 sp < length vel)%nat /\ (p1 sp < length vel)%nat /\
  (p0 sp < length F)%nat /\ (p1 sp < length F)%nat.

(** Loop 2 on the force array alone: [None] when a spring refers to a
    missing particle. *)
Definition applySpring (stiffness damping : A) (pos vel : list (Vec3.t A))
    (F : list (Vec3.t A)) (sp : Spring A) : option (list (Vec3.t A)) :=
  pj ← pos !! p1 sp;
  pi ← pos !! p0 sp;
  vj ← vel !! p1 sp;
  vi ← vel !! p0 sp;
  let f := springForce stiffness damping pi pj vi vj (rest sp) in
  Fi ← F !! p0 sp;
  let F1 := <[p0 sp := Vec3.inc Fi f]> F in
  Fj ← F1 !! p1 sp;
  Some (<[p1 sp := Vec3.dec Fj f]> F1).

Fixpoint springLoop (stiffness damping : A) (pos vel : list (Vec3.t A))
    (sps : list (Spring A)) (F : list (Vec3.t A)) : option (list (Vec3.t A)) :=
  match sps with
  | [] => Some F
  | sp :: sps' =>
      F' ← applySpring stiffness damping pos vel F sp;
      springLoop stiffness damping pos vel sps' F'
  end.

(** Loop 3 for one particle. *)
Definition integrateV (dt particleMass : A) (F v : Vec3.t A) : Vec3.t A :=
  Vec3.inc v (Vec3.mul (Vec3.div F particleMass) dt).

Definition integrateP (dt : A) (v' p : Vec3.t A) : Vec3.t A :=
  Vec3.inc p (Vec3.mul v' dt).

(** Loop 4 for one coordinate: position and velocity on one axis. *)
Definition clampLow (restitution : A) (pv : A * A) : A * A :=
  if pv.1 <? - none
  then (- none, if pv.2 <? nzero then - pv.2 * restitution else pv.2)
  else pv.

Definition clampHigh (restitution : A) (pv : A * A) : A * A :=
  if pv.1 >? none
  then (none, if pv.2 >? nzero then - pv.2 * restitution else pv.2)
  else pv.

Definition collide1 (restitution : A) (pv : A * A) : A * A :=
  clampHigh restitution (clampLow restitution pv).

Definition collideDim (restitution : A) (d : Vec3.dim)
    (pv : Vec3.t A * Vec3.t A) : Vec3.t A * Vec3.t A :=
  let r := collide1 restitution (Vec3.get d pv.1, Vec3.get d pv.2) in
  (Vec3.set d r.1 pv.1, Vec3.set d r.2 pv.2).

Definition collideParticle (restitution : A) (pv : Vec3.t A * Vec3.t A)
    : Vec3.t A * Vec3.t A :=
  collideDim restitution Vec3.dz
    (collideDim restitution Vec3.dy
      (collideDim restitution Vec3.dx pv)).
Definition withForces (s : Sim A) (F : list (Vec3.t A)) : Sim A :=
  mkSim (positions s) (velocities s) (springs s) F.

(** The state after particle [i] received position [p] and velocity [v]. *)
Definition setParticle (i : nat) (p v : Vec3.t A) (s : Sim A) : Sim A :=
  mkSim (<[i := p]> (positions s)) (<[i := v]> (velocities s))
        (springs s) (forces s).

(** While a loop over the particle indices runs, the particles below the
    loop counter have their new value and the others their old one. *)
Definition splice {T} (k : nat) (new old : list T) : list T :=
  take k new ++ drop k old.

Definition mid (k : nat) (P1 V1 : list (Vec3.t A)) (s0 : Sim A) : Sim A :=
  mkSim (splice k P1 (positions s0)) (splice k V1 (velocities s0))
        (springs s0) (forces s0).

(** The arrays after loop 3 and after loop 4. *)
Definition integrateVs (dt particleMass : A) (F vel : list (Vec3.t A)) :=
  zip_with (integrateV dt particleMass) F vel.

Definition integratePs (dt : A) (vel' pos : list (Vec3.t A)) :=
  zip_with (integrateP dt) vel' pos.

Definition collidePs (restitution : A) (pos vel : list (Vec3.t A)) :=
  zip_with (fun p v => (collideParticle restitution (p, v)).1) pos vel.

Definition collideVs (restitution : A) (pos vel : list (Vec3.t A)) :=
  zip_with (fun p v => (collideParticle restitution (p, v)).2) pos vel.

(** The forces after loop 1. *)
Definition gravityForces (particleMass : A) (gravity : Vec3.t A) (n : nat) :=
  replicate n (Vec3.mul gravity particleMass).

(** Same spring records, same number of positions and of velocities. *)
Definition sameShape (s s' : Sim A) : Prop :=
  springs s' = springs s /\
  length (positions s') = length (positions s) /\
  length (velocities s') = length (velocities s).

(** [m] keeps the shape whether it completes or throws. *)
Definition preserves {T} (m : M A T) : Prop :=
  forall s, sameShape s (finalState (m s)).

(** The force of a spring, from the arrays (zero when an endpoint is
    missing, in which case the step throws before using it). *)
Definition forceOf (stiffness damping : A) (pos vel : list (Vec3.t A))
    (sp : Spring A) : Vec3.t A :=
  default Vec3.zero
    (pj ← pos !! p1 sp;
     pi ← pos !! p0 sp;
     vj ← vel !! p1 sp;
     vi ← vel !! p0 sp;
     Some (springForce stiffness damping pi pj vi vj (rest sp))).

(** [forces[i].inc(f)] and [forces[i].dec(f)] on a force array. *)
Definition addTo (f : Vec3.t A) (i : nat) (F : list (Vec3.t A)) :=
  alter (fun v => Vec3.inc v f) i F.

Definition subFrom (f : Vec3.t A) (i : nat) (F : list (Vec3.t A)) :=
  alter (fun v => Vec3.dec v f) i F.

(** What the caller can observe of a call: whether it completed, and the
    two arrays. *)
Definition visible {T} (r : Res A T)
    : bool * list (Vec3.t A) * list (Vec3.t A) :=
  (completes r, positions (finalState r), velocities (finalState r)).

(** Positions and velocities after loop 3, before the collision loop. *)
Definition afterIntegration (dt : A) (pos vel : list (Vec3.t A))
    (sps : list (Spring A)) (stiffness damping particleMass : A)
    (gravity : Vec3.t A) : option (list (Vec3.t A) * list (Vec3.t A)) :=
  F ← springLoop stiffness damping pos vel sps
        (gravityForces particleMass gravity (length pos));
  let V1 := integrateVs dt particleMass F vel in
  Some (integratePs dt V1 pos, V1).

(** Loops 3 and 4 in sequence, for [n] particles. *)
Definition integrateAndCollide (dt particleMass restitution : A) (n : nat)
    : M A unit :=
  forEach (seq 0 n) (integrateStep dt particleMass);;
  forEach (seq 0 n) (collideStep restitution).

(** Two states with the same particles and forces; the spring records
    may differ. *)
Definition agree (s t : Sim A) : Prop :=
  positions s = positions t /\ velocities s = velocities t /\
  forces s = forces t.

Definition agreeRes {T} (r r' : Res A T) : Prop :=
  match r, r' with
  | Ret v s, Ret v' s' => v = v' /\ agree s s'
  | Throw s, Throw s' => agree s s'
  | _, _ => False
  end.

(** [m] does not look at the spring records. *)
Definition springFree {T} (m : M A T) : Prop :=
  forall s t, agree s t -> agreeRes (m s) (m t).

End Pure.

(** ** Scenes over the real numbers *)

Definition v3 (a b c : R) : Vec3.t R := Vec3.mk a b c.

(** The closed cube [[-1, 1]^3]. *)
Definition inBox (p : Vec3.t R) : Prop :=
  (-1 <= Vec3.x p <= 1 /\ -1 <= Vec3.y p <= 1 /\ -1 <= Vec3.z p <= 1)%R.

(** Sum of a list of vectors. *)
Definition vsum (l : list (Vec3.t R)) : Vec3.t R :=
  foldr Vec3.add Vec3.zero l.

(** Total momentum: the sum over the particles of [particleMass * velocity]. *)
Definition momentum (particleMass : R) (vel : list (Vec3.t R)) : Vec3.t R :=
  vsum (map (fun v => Vec3.mul v particleMass) vel).

(** No boundary contact: no integrated position leaves the cube, so the
    collision loop has nothing to clamp. *)
Definition noContact (dt : R) (pos vel : list (Vec3.t R))
    (sps : list (Spring R)) (stiffness damping particleMass : R)
    (gravity : Vec3.t R) : Prop :=
  match afterIntegration dt pos vel sps stiffness damping particleMass gravity
  with
  | Some (P1, _) => Forall inBox P1
  | None => False
  end.

(** Input the specification calls malformed, for [n] particles. *)
Definition malformed (dt particleMass : R) (n : nat) (sps : list (Spring R))
    : Prop :=
  (particleMass < 0)%R \/ (dt <= 0)%R \/
  Exists (fun sp => (n <= p0 sp)%nat \/ (n <= p1 sp)%nat) sps.

(** The two-particle scene of the specification: particles at rest at
    [(0,0,0)] and [(1,0,0)], one spring of rest length 2 between them. *)
Definition twoParticles : list (Vec3.t R) := [v3 0 0 0; v3 1 0 0].
Definition atRest : list (Vec3.t R) := [v3 0 0 0; v3 0 0 0].
Definition compressedSpring : Spring R := mkSpring 0%nat 1%nat 2%R.

(** A pair of particles inside the cube, one unit apart, joined by the same
    spring. *)
Definition innerPair : list (Vec3.t R) := [v3 (-0.5) 0 0; v3 0.5 0 0].

(** Two particles at one place, joined by a spring. *)
Definition stacked : list (Vec3.t R) := [v3 0 0 0.5; v3 0 0 0.5].

(** The same scene during loop 2, with gravity zero. *)
Definition twoParticlesSim : Sim R :=
  mkSim twoParticles atRest [compressedSpring] [v3 0 0 0; v3 0 0 0].

(** ** Scenes in binary64 *)

(** The scenes of the specification with the numbers a JavaScript engine
    uses; each definition is a closed term that evaluates. *)
Module Binary64.
Import PrimFloat.
#[local] Set Warnings "-inexact-float".
Local Open Scope float_scope.

Definition f3 (a b c : float) : Vec3.t float := Vec3.mk a b c.

(** A free particle under gravity. *)
Definition freeFall :=
  visible (SimTimeStep 0.1 [f3 0 0 0.5] [f3 0 0 0] [] 1 0 1 (f3 0 0 (-1)) 0.5).
Definition freeFallResult :=
  (true, [f3 0 0 0.49], [f3 0 0 (-0.1)]).

(** A particle that crosses the wall [z = 1]. *)
Definition wallBounce :=
  visible (SimTimeStep 0.1 [f3 0 0 0.95] [f3 0 0 1] [] 1 0 1 (f3 0 0 0) 0.5).
Definition wallBounceResult :=
  (true, [f3 0 0 1], [f3 0 0 (-0.5)]).

(** The two-particle scene, with [restitution = 1]. *)
Definition pushedApart (dt : float) :=
  visible (SimTimeStep dt [f3 0 0 0; f3 1 0 0] [f3 0 0 0; f3 0 0 0]
             [mkSpring 0%nat 1%nat 2] 1 0 1 (f3 0 0 0) 1).
Definition smallStep : float := 0.01.
Definition tinyStep : float := 1e-9.
Definition pushedApartResult :=
  (true, [f3 (-0.0001) 0 0; f3 1 0 0], [f3 (-0.01) 0 0; f3 (-0.01) 0 0]).
Definition pushedApartTinyResult :=
  (true, [f3 (-1e-18) 0 0; f3 1 0 0], [f3 (-1e-9) 0 0; f3 1e-9 0 0]).

(** Two particles at one place, with and without a spring between them. *)
Definition stackedRun (sps : list (Spring float)) :=
  visible (SimTimeStep 0.1 [f3 0 0 0.5; f3 0 0 0.5] [f3 0 0 0; f3 0 0 0] sps
             1 0.25 1 (f3 0 0 (-1)) 0.5).

Definition stackedSpring : Spring float := mkSpring 0%nat 1%nat 1.

(** Negative mass and a zero time step; a spring to a missing particle. *)
Definition unvalidated :=
  completes (SimTimeStep 0 [f3 0 0 0] [f3 0 0 0] [] 1 0 (-1) (f3 0 0 (-1)) 1).
Definition danglingSpring :=
  visible (SimTimeStep 0.1 [f3 0 0 0] [f3 0 0 0] [mkSpring 0%nat 5%nat 1]
             1 0 1 (f3 0 0 (-1)) 1).
Definition danglingSpringResult :=
  (false, [f3 0 0 0], [f3 0 0 0]).
End Binary64.

(** ** Springs, once more *)

(** The same spring with its endpoints exchanged. *)
Definition flipSpring {A} (sp : Spring A) : Spring A :=
  mkSpring (p1 sp) (p0 sp) (rest sp).

(** A spring at its rest length: both endpoints exist and are [rest] apart. *)
Definition atRestLength (pos : list (Vec3.t R)) (sp : Spring R) : Prop :=
  exists pi pj,
    pos !! p0 sp = Some pi /\ pos !! p1 sp = Some pj /\
    Vec3.len (Vec3.sub pj pi) = rest sp.

(** ** 2D transformations: project2.js *)

(** The number an arithmetic operator makes of [undefined], which is what
    an array read past the end gives: NaN. *)
Class NotANumber (A : Type) : Type := nnan : A.

#[export] Instance float_nan : NotANumber PrimFloat.float := PrimFloat.nan.

Section Transform2D.
Context {A : Type} `{Number A} `{NotANumber A}.
Local Open Scope num_scope.

(** [a[i]] used as an operand. *)
Definition readNum (a : list A) (i : nat) : A := default nnan (a !! i).

(** The statement of the innermost loop of [ApplyTransform], line 49:
    [result[col * 3 + row] += trans2[k * 3 + row] * trans1[col * 3 + k]]. *)
Definition accumulate (trans1 trans2 : list A) (row col k : nat)
    (result : list A) : list A :=
  <[(col * 3 + row)%nat :=
      readNum result (col * 3 + row)%nat
      + readNum trans2 (k * 3 + row)%nat * readNum trans1 (col * 3 + k)%nat]>
    result.

(** [ApplyTransform(trans1, trans2)], project2.js lines 41-54: the three
    nested counting loops over a result that starts as nine zeros. *)
Definition ApplyTransform (trans1 trans2 : list A) : list A :=
  let result := replicate 9 nzero in
  foldl (fun result row =>
    foldl (fun result col =>
      foldl (fun result k => accumulate trans1 trans2 row col k result)
        result (seq 0 3))
      result (seq 0 3))
    result (seq 0 3).

(** A 3x3 matrix in column-major order applied to the column vector
    [(x, y, w)]: entry [(row, col)] is at index [col * 3 + row]. *)
Definition transformPoint (m : list A) (p : A * A * A) : A * A * A :=
  let '(x, y, w) := p in
  (readNum m 0 * x + readNum m 3 * y + readNum m 6 * w,
   readNum m 1 * x + readNum m 4 * y + readNum m 7 * w,
   readNum m 2 * x + readNum m 5 * y + readNum m 8 * w).

(** One entry of the product: the three terms are added to zero in the
    order of the innermost loop. *)
Definition productEntry (trans1 trans2 : list A) (row col : nat) : A :=
  nzero
  + readNum trans2 (0 * 3 + row)%nat * readNum trans1 (col * 3 + 0)%nat
  + readNum trans2 (1 * 3 + row)%nat * readNum trans1 (col * 3 + 1)%nat
  + readNum trans2 (2 * 3 + row)%nat * readNum trans1 (col * 3 + 2)%nat.
End Transform2D.

(** [GetTransform(positionX, positionY, rotation, scale)], project2.js
    lines 4-36, over the reals ([Math.PI], [Math.cos] and [Math.sin] are
    [PI], [cos] and [sin]). *)
Definition GetTransform (positionX positionY rotation scale : R) : list R :=
  let rad := (rotation * PI / 180)%R in
  let cosr := cos rad in
  let sinr := sin rad in
  [ (scale * cosr)%R; (scale * sinr)%R; 0%R;
    (- scale * sinr)%R; (scale * cosr)%R; 0%R;
    positionX; positionY; 1%R ].

(** The 3x3 identity in column-major order. *)
Definition identity3 : list R := [1; 0; 0; 0; 1; 0; 0; 0; 1]%R.

(** ** 3D transformations: project4.js *)

Section Transform3D.
Context `{NotANumber R}.
Local Open Scope R_scope.

(** Entry [(row, col)] of the product of two 4x4 matrices stored in
    column-major order, entry [(row, col)] at index [row + 4 * col]. *)
Definition productEntry4 (a b : list R) (row col : nat) : R :=
  0 + readNum a (row + 4 * 0)%nat * readNum b (0 + 4 * col)%nat
    + readNum a (row + 4 * 1)%nat * readNum b (1 + 4 * col)%nat
    + readNum a (row + 4 * 2)%nat * readNum b (2 + 4 * col)%nat
    + readNum a (row + 4 * 3)%nat * readNum b (3 + 4 * col)%nat.

(** The product the comments of project4.js ask of [MatrixMult], a
    function of project4.html: the 4x4 product [a * b], both arguments and
    the result in column-major order. *)
Definition columnMajorProduct (a b : list R) : list R :=
  col ← seq 0 4; row ← seq 0 4; [productEntry4 a b row col].

(** A 4x4 matrix in column-major order applied to the column vector
    [(x, y, z, w)]. *)
Definition transformPoint4 (m : list R) (p : R * R * R * R)
    : R * R * R * R :=
  let '(x, y, z, w) := p in
  (readNum m 0 * x + readNum m 4 * y + readNum m 8 * z + readNum m 12 * w,
   readNum m 1 * x + readNum m 5 * y + readNum m 9 * z + readNum m 13 * w,
   readNum m 2 * x + readNum m 6 * y + readNum m 10 * z + readNum m 14 * w,
   readNum m 3 * x + readNum m 7 * y + readNum m 11 * z + readNum m 15 * w).

(** What the callers rely on: [MatrixMult] multiplies 4x4 matrices in
    column-major order. *)
Definition multiplies (MatrixMult : list R -> list R -> list R) : Prop :=
  forall a b : list R, length a = 16%nat -> length b = 16%nat ->
    MatrixMult a b = columnMajorProduct a b.
End Transform3D.

(** The squared distance of the points two homogeneous vectors stand for
    when their last component is one. *)
Definition dist2 (p q : R * R * R * R) : R :=
  let '(px, py, pz, _) := p in
  let '(qx, qy, qz, _) := q in
  ((px - qx) * (px - qx) + (py - qy) * (py - qy) + (pz - qz) * (pz - qz))%R.

Section ModelView.
(** [MatrixMult] is defined in project4.html, outside the sources: the
    functions below are given it as they call it. *)
Variable MatrixMult : list R -> list R -> list R.
Local Open Scope R_scope.

(** [GetModelViewMatrix], project4.js lines 184-220. *)
Definition GetModelViewMatrix
    (translationX translationY translationZ rotationX rotationY : R)
    : list R :=
  let cosX := cos rotationX in
  let sinX := sin rotationX in
  let cosY := cos rotationY in
  let sinY := sin rotationY in
  let rotX := [1; 0; 0; 0; 0; cosX; sinX; 0; 0; - sinX; cosX; 0; 0; 0; 0; 1] in
  let rotY := [cosY; 0; - sinY; 0; 0; 1; 0; 0; sinY; 0; cosY; 0; 0; 0; 0; 1] in
  let trans :=
    [1; 0; 0; 0; 0; 1; 0; 0; 0; 0; 1; 0;
     translationX; translationY; translationZ; 1] in
  MatrixMult trans (MatrixMult rotX rotY).

(** [GetModelViewProjection], project4.js lines 6-51. *)
Definition GetModelViewProjection (projectionMatrix : list R)
    (translationX translationY translationZ rotationX rotationY : R)
    : list R :=
  let cosX := cos rotationX in
  let sinX := sin rotationX in
  let cosY := cos rotationY in
  let sinY := sin rotationY in
  let rotX := [1; 0; 0; 0; 0; cosX; sinX; 0; 0; - sinX; cosX; 0; 0; 0; 0; 1] in
  let rotY := [cosY; 0; - sinY; 0; 0; 1; 0; 0; sinY; 0; cosY; 0; 0; 0; 0; 1] in
  let trans :=
    [1; 0; 0; 0; 0; 1; 0; 0; 0; 0; 1; 0;
     translationX; translationY; translationZ; 1] in
  let mvp :=
    MatrixMult projectionMatrix
      (MatrixMult trans (MatrixMult rotX rotY)) in
  mvp.
End ModelView.

(** ** Alpha compositing: [composite] of project4.js *)

(** The literal [255]. *)
Class ByteMax (A : Type) : Type := n255 : A.

#[export] Instance R_255 : ByteMax R := 255%R.

(** An image as [composite] reads it: [img.data], four numbers (red, green,
    blue, alpha) per pixel, row after row, with [img.width] and
    [img.height]. *)
Module Image.
Record t (A : Type) : Type := mk { data : list A; width : nat; height : nat }.
Arguments mk {A} data width height.
Arguments data {A} t.
Arguments width {A} t.
Arguments height {A} t.
End Image.

(** [fgPos]: the pixel of the background under the top-left pixel of the
    foreground; its coordinates can be negative. *)
Module Point.
Record t : Type := mk { x : Z; y : Z }.
End Point.

Section Composite.
Context {A : Type} `{Number A} `{NotANumber A} `{ByteMax A}.

(** What storing a number in the data array makes of it: nothing for a
    plain array, clamping and rounding to a byte for the array of a canvas
    image.  The sources do not say which; the model takes the conversion as
    a parameter. *)
Variable toElement : A -> A.

Local Open Scope num_scope.

(** The test of line 516: the background pixel [(bgX, bgY)] exists. *)
Definition outOfBounds (bgImg : Image.t A) (bgX bgY : Z) : bool :=
  (bgX <? 0)%Z || (bgX >=? Z.of_nat (Image.width bgImg))%Z
  || (bgY <? 0)%Z || (bgY >=? Z.of_nat (Image.height bgImg))%Z.

(** [bgIndex], line 521. *)
Definition bgIndexOf (bgImg : Image.t A) (bgX bgY : Z) : nat :=
  Z.to_nat ((bgY * Z.of_nat (Image.width bgImg) + bgX) * 4).

(** [fgIndex], line 509. *)
Definition fgIndexOf (fgImg : Image.t A) (x y : nat) : nat :=
  ((y * Image.width fgImg + x) * 4)%nat.

(** The body of the inner loop, lines 508-545, for the foreground pixel
    [(x, y)], on the background data as the earlier iterations left it.  A
    write goes to an index inside the array (lines 516-518 see to that when
    the array holds [4 * width * height] numbers). *)
Definition blendPixel (bgImg fgImg : Image.t A) (fgOpac : A)
    (fgPos : Point.t) (bgData : list A) (y x : nat) : list A :=
  let fgData := Image.data fgImg in
  let fgIndex := fgIndexOf fgImg x y in
  let bgX := (Point.x fgPos + Z.of_nat x)%Z in
  let bgY := (Point.y fgPos + Z.of_nat y)%Z in
  if outOfBounds bgImg bgX bgY then bgData
  else
    let bgIndex := bgIndexOf bgImg bgX bgY in
    let fgR := readNum fgData fgIndex in
    let fgG := readNum fgData (fgIndex + 1)%nat in
    let fgB := readNum fgData (fgIndex + 2)%nat in
    let fgA := readNum fgData (fgIndex + 3)%nat / n255 * fgOpac in
    let bgR := readNum bgData bgIndex in
    let bgG := readNum bgData (bgIndex + 1)%nat in
    let bgB := readNum bgData (bgIndex + 2)%nat in
    let bgA := readNum bgData (bgIndex + 3)%nat / n255 in
    let outA := fgA + bgA * (none - fgA) in
    if outA >? nzero then
      let bgData :=
        <[bgIndex := toElement ((fgR * fgA + bgR * bgA * (none - fgA)) / outA)]>
          bgData in
      let bgData :=
        <[(bgIndex + 1)%nat :=
            toElement ((fgG * fgA + bgG * bgA * (none - fgA)) / outA)]>
          bgData in
      let bgData :=
        <[(bgIndex + 2)%nat :=
            toElement ((fgB * fgA + bgB * bgA * (none - fgA)) / outA)]>
          bgData in
      <[(bgIndex + 3)%nat := toElement (outA * n255)]> bgData
    else bgData.

(** [composite(bgImg, fgImg, fgOpac, fgPos)], lines 494-547: the
    background image after the call, which changes [bgImg.data] in place
    and returns nothing.  The foreground is another object than the
    background: its data is read as it was before the call. *)
Definition composite (bgImg fgImg : Image.t A) (fgOpac : A)
    (fgPos : Point.t) : Image.t A :=
  Image.mk
    (foldl (fun bgData y =>
       foldl (fun bgData x => blendPixel bgImg fgImg fgOpac fgPos bgData y x)
         bgData (seq 0 (Image.width fgImg)))
       (Image.data bgImg) (seq 0 (Image.height fgImg)))
    (Image.width bgImg) (Image.height bgImg).

(** The four numbers of the pixel that starts at index [i]. *)
Definition pixelAt (d : list A) (i : nat) : A * A * A * A :=
  (readNum d i, readNum d (i + 1)%nat, readNum d (i + 2)%nat,
   readNum d (i + 3)%nat).

(** The blend of lines 523-544 as a function of the two pixels. *)
Definition over (fgOpac : A) (fg bg : A * A * A * A) : A * A * A * A :=
  let '(fgR, fgG, fgB, fgAlpha) := fg in
  let '(bgR, bgG, bgB, bgAlpha) := bg in
  let fgA := fgAlpha / n255 * fgOpac in
  let bgA := bgAlpha / n255 in
  let outA := fgA + bgA * (none - fgA) in
  if outA >? nzero then
    (toElement ((fgR * fgA + bgR * bgA * (none - fgA)) / outA),
     toElement ((fgG * fgA + bgG * bgA * (none - fgA)) / outA),
     toElement ((fgB * fgA + bgB * bgA * (none - fgA)) / outA),
     toElement (outA * n255))
  else bg.

(** The foreground pixels in the order the loops visit them. *)
Definition fgPixels (fgImg : Image.t A) : list (nat * nat) :=
  seq 0 (Image.height fgImg)
    ≫= fun y => pair y <$> seq 0 (Image.width fgImg).

(** Index [i] belongs to the background pixel under foreground pixel
    [(x, y)]. *)
Definition under (bgImg : Image.t A) (fgPos : Point.t) (yx : nat * nat)
    (i : nat) : Prop :=
  let bgX := (Point.x fgPos + Z.of_nat yx.2)%Z in
  let bgY := (Point.y fgPos + Z.of_nat yx.1)%Z in
  outOfBounds bgImg bgX bgY = false /\
  (bgIndexOf bgImg bgX bgY <= i < bgIndexOf bgImg bgX bgY + 4)%nat.

(** The data array holds four numbers per pixel. *)
Definition wellSized (img : Image.t A) : Prop :=
  length (Image.data img) = (4 * Image.width img * Image.height img)%nat.
End Composite.

(** ** Scenes for the further properties *)

(** A stand-in for the number a missing entry reads as.  The reals have no
    NaN; the properties over the reals read inside the arrays and hold for
    any stand-in, and the scenes below fix one. *)
Definition noMissingRead : NotANumber R := 0%R.

(** Scaling by two, and the translation by [(3, 4)], in column-major
    order. *)
Definition scale2 : list R := [2; 0; 0; 0; 2; 0; 0; 0; 1]%R.
Definition shift34 : list R := [1; 0; 0; 0; 1; 0; 3; 4; 1]%R.

(** A spring of the inner pair at its rest length. *)
Definition relaxedSpring : Spring R := mkSpring 0%nat 1%nat 1%R.

(** A background of two opaque pixels side by side, a foreground of one
    pixel with alpha [a], and the position that aligns the top-left
    pixels. *)
Definition twoPixels : Image.t R :=
  Image.mk [10; 20; 30; 255; 40; 50; 60; 255]%R 2 1.
Definition onePixel (a : R) : Image.t R := Image.mk [200; 100; 0; a]%R 1 1.
Definition topLeft : Point.t := Point.mk 0 0.

(** The same scenes in binary64, as closed terms that evaluate; the array
    stores a number as it is. *)
Module Binary64Scenes.
Import PrimFloat.
#[local] Set Warnings "-inexact-float".
Local Open Scope float_scope.

#[export] Instance float_255 : ByteMax float := 255.

Definition scaleThenShift : list float :=
  ApplyTransform [2; 0; 0; 0; 2; 0; 0; 0; 1] [1; 0; 0; 0; 1; 0; 3; 4; 1].
Definition scaleThenShiftResult : list float :=
  [2; 0; 0; 0; 2; 0; 3; 4; 1].

Definition halfBlend : list float :=
  Image.data
    (composite (fun v => v)
       (Image.mk [10; 20; 30; 255; 40; 50; 60; 255] 2 1)
       (Image.mk [200; 100; 0; 255] 1 1) 0.5 (Point.mk 0 0)).
Definition halfBlendResult : list float :=
  [105; 60; 15; 255; 40; 50; 60; 255].

(** Every coordinate is in [[-1, 1]]; a NaN is not. *)
Definition inBoxb (p : Vec3.t float) : bool :=
  (-1 <=? Vec3.x p) && (Vec3.x p <=? 1)
  && (-1 <=? Vec3.y p) && (Vec3.y p <=? 1)
  && (-1 <=? Vec3.z p) && (Vec3.z p <=? 1).

(** Finite numbers whose spring force overflows: with stiffness [1e308]
    and rest length [100] the Hooke factor is minus infinity, and its
    product with the zero components of the direction is NaN.  The pair
    tells whether the call completes and whether every position is in the
    cube afterwards. *)
Definition overflow : bool * bool :=
  let r :=
    SimTimeStep 0.1 [Vec3.mk 0 0 0; Vec3.mk 0.5 0 0]
      [Vec3.mk 0 0 0; Vec3.mk 0 0 0] [mkSpring 0%nat 1%nat 100]
      1e308 0 1 (Vec3.mk 0 0 0) 0.5 in
  (completes r, forallb inBoxb (positions (finalState r))).
End Binary64Scenes.

(** ** Running the monadic step *)

Section Run.
Context {A : Type} `{Number A}.

Lemma bind_Ret {T U} (m : M A T) (k : T -> M A U) s v s' :
  m s = Ret v s' -> (m ≫= k) s = k v s'.
Proof. intros E. unfold mbind, M_bind, bind. now rewrite E. Qed.

Lemma bind_Throw {T U} (m : M A T) (k : T -> M A U) s s' :
  m s = Throw s' -> (m ≫= k) s = Throw s'.
Proof. intros E. unfold mbind, M_bind, bind. now rewrite E. Qed.

Lemma gets_bind {T U} (f : Sim A -> T) (k : T -> M A U) s :
  (gets f ≫= k) s = k (f s) s.
Proof. reflexivity. Qed.

Lemma deref_Some_bind {T U} (v : T) (k : T -> M A U) s :
  (deref (Some v) ≫= k) s = k v s.
Proof. reflexivity. Qed.

Lemma deref_None_bind {T U} (k : T -> M A U) s :
  (deref None ≫= k) s = Throw s.
Proof. reflexivity. Qed.

Lemma updForce_Some i g (s : Sim A) v :
  forces s !! i = Some v ->
  updForce i g s = Ret tt (withForces s (<[i := g v]> (forces s))).
Proof.
  intros E. unfold updForce.
  rewrite gets_bind, E, deref_Some_bind. reflexivity.
Qed.

Lemma updForce_None i g (s : Sim A) :
  forces s !! i = None -> updForce i g s = Throw s.
Proof.
  intros E. unfold updForce. now rewrite gets_bind, E, deref_None_bind.
Qed.

Lemma updVelocity_Some i g (s : Sim A) v :
  velocities s !! i = Some v ->
  updVelocity i g s =
    Ret tt (mkSim (positions s) (<[i := g v]> (velocities s))
                  (springs s) (forces s)).
Proof.
  intros E. unfold updVelocity.
  rewrite gets_bind, E, deref_Some_bind. reflexivity.
Qed.

Lemma updPosition_Some i g (s : Sim A) p :
  positions s !! i = Some p ->
  updPosition i g s =
    Ret tt (mkSim (<[i := g p]> (positions s)) (velocities s)
                  (springs s) (forces s)).
Proof.
  intros E. unfold updPosition.
  rewrite gets_bind, E, deref_Some_bind. reflexivity.
Qed.

(** *** Loop 2 *)

Lemma springStep_Some stiffness damping sp (s : Sim A) F' :
  applySpring stiffness damping (positions s) (velocities s) (forces s) sp
    = Some F' ->
  springStep stiffness damping sp s = Ret tt (withForces s F').
Proof.
  unfold applySpring, springStep. intros E.
  rewrite !gets_bind.
  destruct (positions s !! p1 sp) as [pj|]; [|discriminate].
  destruct (positions s !! p0 sp) as [pi|]; [|discriminate].
  destruct (velocities s !! p1 sp) as [vj|]; [|discriminate].
  destruct (velocities s !! p0 sp) as [vi|]; [|discriminate].
  simpl in E. rewrite !deref_Some_bind.
  destruct (forces s !! p0 sp) as [Fi|] eqn:EFi; [|discriminate].
  simpl in E.
  erewrite bind_Ret by (apply updForce_Some; eassumption).
  destruct (<[p0 sp := _]> (forces s) !! p1 sp) as [Fj|] eqn:EFj;
    [|discriminate].
  simpl in E. injection E as <-.
  erewrite updForce_Some by (simpl; eassumption).
  reflexivity.
Qed.

Lemma springStep_None stiffness damping sp (s : Sim A) :
  applySpring stiffness damping (positions s) (velocities s) (forces s) sp
    = None ->
  exists F', springStep stiffness damping sp s = Throw (withForces s F').
Proof.
  unfold applySpring, springStep. intros E.
  assert (Hs : s = withForces s (forces s)) by now destruct s.
  rewrite !gets_bind.
  destruct (positions s !! p1 sp) as [pj|];
    [|exists (forces s); now rewrite <- Hs].
  destruct (positions s !! p0 sp) as [pi|];
    [|exists (forces s); now rewrite <- Hs].
  destruct (velocities s !! p1 sp) as [vj|];
    [|exists (forces s); now rewrite <- Hs].
  destruct (velocities s !! p0 sp) as [vi|];
    [|exists (forces s); now rewrite <- Hs].
  simpl in E. rewrite !deref_Some_bind.
  destruct (forces s !! p0 sp) as [Fi|] eqn:EFi.
  - simpl in E.
    erewrite bind_Ret by (apply updForce_Some; eassumption).
    destruct (<[p0 sp := _]> (forces s) !! p1 sp) as [Fj|] eqn:EFj;
      [discriminate|].
    eexists. rewrite updForce_None by (simpl; eassumption). reflexivity.
  - exists (forces s).
    erewrite bind_Throw by (apply updForce_None; eassumption).
    now rewrite <- Hs.
Qed.

Lemma forEach_springs_Some stiffness damping sps (s : Sim A) F' :
  springLoop stiffness damping (positions s) (velocities s) sps (forces s)
    = Some F' ->
  forEach sps (springStep stiffness damping) s = Ret tt (withForces s F').
Proof.
  revert s. induction sps as [|sp sps IH]; intros s E; simpl in *.
  - injection E as <-. now destruct s.
  - destruct (applySpring _ _ _ _ _ sp) as [F1|] eqn:E1; [|discriminate].
    simpl in E.
    erewrite bind_Ret by (apply springStep_Some; eassumption).
    rewrite (IH (withForces s F1) E). reflexivity.
Qed.

Lemma forEach_springs_None stiffness damping sps (s : Sim A) :
  springLoop stiffness damping (positions s) (velocities s) sps (forces s)
    = None ->
  exists F', forEach sps (springStep stiffness damping) s
             = Throw (withForces s F').
Proof.
  revert s. induction sps as [|sp sps IH]; intros s E; simpl in *.
  - discriminate.
  - destruct (applySpring _ _ _ _ _ sp) as [F1|] eqn:E1.
    + simpl in E.
      erewrite bind_Ret by (apply springStep_Some; eassumption).
      destruct (IH (withForces s F1) E) as [F' ->]. now exists F'.
    + destruct (springStep_None _ _ _ _ E1) as [F' E'].
      exists F'. now erewrite bind_Throw by eassumption.
Qed.

(** *** Loops 3 and 4: one particle *)

Lemma set_get d (v : Vec3.t A) : Vec3.set d (Vec3.get d v) v = v.
Proof. now destruct d, v. Qed.

Lemma get_set d (a : A) (v : Vec3.t A) : Vec3.get d (Vec3.set d a v) = a.
Proof. now destruct d. Qed.

Lemma set_set d (a b : A) (v : Vec3.t A) :
  Vec3.set d b (Vec3.set d a v) = Vec3.set d b v.
Proof. now destruct d. Qed.

Lemma setParticle_id i p v (s : Sim A) :
  positions s !! i = Some p -> velocities s !! i = Some v ->
  setParticle i p v s = s.
Proof.
  intros Ep Ev. unfold setParticle.
  rewrite !list_insert_id by assumption. now destruct s.
Qed.

Lemma setParticle_twice i p v p' v' (s : Sim A) :
  setParticle i p' v' (setParticle i p v s) = setParticle i p' v' s.
Proof. unfold setParticle; simpl. now rewrite !list_insert_insert_eq. Qed.

Lemma integrateStep_spec dt particleMass i (s : Sim A) F v p :
  forces s !! i = Some F ->
  velocities s !! i = Some v ->
  positions s !! i = Some p ->
  integrateStep dt particleMass i s =
    Ret tt (setParticle i
              (integrateP dt (integrateV dt particleMass F v) p)
              (integrateV dt particleMass F v) s).
Proof.
  intros EF Ev Ep. unfold integrateStep.
  rewrite gets_bind, EF, deref_Some_bind.
  erewrite bind_Ret by (apply updVelocity_Some; eassumption).
  rewrite gets_bind. simpl.
  rewrite list_lookup_insert_eq by (eapply lookup_lt_Some; eassumption).
  rewrite deref_Some_bind.
  erewrite updPosition_Some by (simpl; eassumption). reflexivity.
Qed.

Lemma clampBelow_spec restitution i d (s : Sim A) p v :
  positions s !! i = Some p ->
  velocities s !! i = Some v ->
  let r := clampLow restitution (Vec3.get d p, Vec3.get d v) in
  clampBelow restitution i d s =
    Ret tt (setParticle i (Vec3.set d r.1 p) (Vec3.set d r.2 v) s).
Proof.
  intros Ep Ev. unfold clampBelow, clampLow. simpl.
  rewrite gets_bind, Ep, deref_Some_bind.
  destruct (nltb (Vec3.get d p) (nneg none)); simpl.
  - erewrite bind_Ret by (apply updPosition_Some; eassumption).
    rewrite gets_bind. simpl. rewrite Ev, deref_Some_bind.
    destruct (nltb (Vec3.get d v) nzero).
    + erewrite updVelocity_Some by (simpl; eassumption). reflexivity.
    + unfold setParticle. rewrite set_get.
      now rewrite (list_insert_id (velocities s)) by assumption.
  - rewrite !set_get. now rewrite setParticle_id.
Qed.

Lemma clampAbove_spec restitution i d (s : Sim A) p v :
  positions s !! i = Some p ->
  velocities s !! i = Some v ->
  let r := clampHigh restitution (Vec3.get d p, Vec3.get d v) in
  clampAbove restitution i d s =
    Ret tt (setParticle i (Vec3.set d r.1 p) (Vec3.set d r.2 v) s).
Proof.
  intros Ep Ev. unfold clampAbove, clampHigh. simpl.
  rewrite gets_bind, Ep, deref_Some_bind.
  destruct (nltb none (Vec3.get d p)); simpl.
  - erewrite bind_Ret by (apply updPosition_Some; eassumption).
    rewrite gets_bind. simpl. rewrite Ev, deref_Some_bind.
    destruct (nltb nzero (Vec3.get d v)).
    + erewrite updVelocity_Some by (simpl; eassumption). reflexivity.
    + unfold setParticle. rewrite set_get.
      now rewrite (list_insert_id (velocities s)) by assumption.
  - rewrite !set_get. now rewrite setParticle_id.
Qed.

Lemma collideAxis_spec restitution i d (s : Sim A) p v :
  positions s !! i = Some p ->
  velocities s !! i = Some v ->
  let r := collideDim restitution d (p, v) in
  collideAxis restitution i d s = Ret tt (setParticle i r.1 r.2 s).
Proof.
  intros Ep Ev. unfold collideAxis, collideDim, collide1. simpl.
  erewrite bind_Ret by (apply clampBelow_spec; eassumption).
  erewrite clampAbove_spec.
  2,3: simpl; apply list_lookup_insert_eq; eapply lookup_lt_Some; eassumption.
  rewrite setParticle_twice, !get_set, !set_set.
  now destruct (clampLow _ _).
Qed.

Lemma collideStep_spec restitution i (s : Sim A) p v :
  positions s !! i = Some p ->
  velocities s !! i = Some v ->
  let r := collideParticle restitution (p, v) in
  collideStep restitution i s = Ret tt (setParticle i r.1 r.2 s).
Proof.
  intros Ep Ev. unfold collideStep, collideParticle. simpl.
  assert (Hp : (i < length (positions s))%nat)
    by (eapply lookup_lt_Some; eassumption).
  assert (Hv : (i < length (velocities s))%nat)
    by (eapply lookup_lt_Some; eassumption).
  erewrite bind_Ret by (apply collideAxis_spec; eassumption).
  erewrite bind_Ret.
  2:{ apply collideAxis_spec; simpl; now apply list_lookup_insert_eq. }
  erewrite bind_Ret.
  2:{ apply collideAxis_spec; simpl; apply list_lookup_insert_eq;
      now rewrite length_insert. }
  now rewrite !setParticle_twice.
Qed.
End Run.

(** ** The loops over particles *)

Section Loops.
Context {A : Type} `{Number A}.

Lemma splice_lookup {T} k (new old : list T) :
  (k <= length new)%nat -> splice k new old !! k = old !! k.
Proof.
  intros Hk. unfold splice.
  rewrite lookup_app_r by (rewrite length_take; lia).
  rewrite length_take, lookup_drop. f_equal. lia.
Qed.

Lemma splice_insert {T} k (new old : list T) a :
  new !! k = Some a -> (k < length old)%nat ->
  <[k := a]> (splice k new old) = splice (S k) new old.
Proof.
  intros Ea Hk. unfold splice.
  pose proof (lookup_lt_Some _ _ _ Ea) as Hn.
  destruct (lookup_lt_is_Some_2 old k Hk) as [b Eb].
  rewrite insert_app_r_alt by (rewrite length_take; lia).
  rewrite length_take.
  replace (k - k `min` length new)%nat with 0%nat by lia.
  rewrite (drop_S _ _ _ Eb). simpl.
  rewrite (take_S_r _ _ _ Ea), <- app_assoc. reflexivity.
Qed.

Lemma splice_all {T} (new old : list T) :
  length new = length old -> splice (length new) new old = new.
Proof.
  intros E. unfold splice.
  rewrite take_ge, drop_ge, app_nil_r by lia. reflexivity.
Qed.

Lemma mid_0 P1 V1 (s0 : Sim A) : mid 0 P1 V1 s0 = s0.
Proof. unfold mid, splice. simpl. now destruct s0. Qed.

Lemma forEach_seq_mid (body : nat -> M A unit) P1 V1 (s0 : Sim A) n k :
  length P1 = length (positions s0) ->
  length V1 = length (velocities s0) ->
  (k + n <= length P1)%nat ->
  (k + n <= length V1)%nat ->
  (forall j p v, (k <= j < k + n)%nat ->
     P1 !! j = Some p -> V1 !! j = Some v ->
     body j (mid j P1 V1 s0) = Ret tt (setParticle j p v (mid j P1 V1 s0))) ->
  forEach (seq k n) body (mid k P1 V1 s0) = Ret tt (mid (k + n) P1 V1 s0).
Proof.
  intros LP LV. revert k.
  induction n as [|n IH]; intros k HP HV Hbody; simpl.
  - now replace (k + 0)%nat with k by lia.
  - destruct (lookup_lt_is_Some_2 P1 k) as [p Ep]; [lia|].
    destruct (lookup_lt_is_Some_2 V1 k) as [v Ev]; [lia|].
    erewrite bind_Ret by (apply Hbody; [lia|eassumption..]).
    unfold setParticle, mid at 1 2 3 4. simpl.
    rewrite !splice_insert by (assumption || lia).
    fold (mid (S k) P1 V1 s0).
    rewrite IH by (try lia; intros; apply Hbody; (lia || assumption)).
    f_equal. f_equal; lia.
Qed.

Lemma integrateLoop_spec dt particleMass (s : Sim A) :
  length (velocities s) = length (positions s) ->
  length (forces s) = length (positions s) ->
  let V1 := integrateVs dt particleMass (forces s) (velocities s) in
  let P1 := integratePs dt V1 (positions s) in
  forEach (seq 0 (length (positions s))) (integrateStep dt particleMass) s
  = Ret tt (mkSim P1 V1 (springs s) (forces s)).
Proof.
  intros LV LF V1 P1.
  assert (LV1 : length V1 = length (velocities s)).
  { unfold V1, integrateVs. rewrite length_zip_with. lia. }
  assert (LP1 : length P1 = length (positions s)).
  { unfold P1, integratePs. rewrite length_zip_with. lia. }
  rewrite <- (mid_0 P1 V1 s) at 2.
  rewrite (forEach_seq_mid _ P1 V1 s) by
    (try lia; intros j p v Hj Ep Ev;
     (unfold P1, integratePs in Ep; unfold V1, integrateVs in Ev;
      apply lookup_zip_with_Some in Ep as (v' & p0 & -> & Ev' & Ep0);
      apply lookup_zip_with_Some in Ev as (F & v0 & -> & EF & Ev0);
      fold (integrateVs dt particleMass (forces s) (velocities s)) in Ev';
      fold V1 in Ev'; unfold V1, integrateVs in Ev';
      apply lookup_zip_with_Some in Ev' as (F' & v0' & -> & EF' & Ev0');
      simplify_eq;
      apply integrateStep_spec; simpl;
      [assumption | rewrite splice_lookup by lia; assumption
      | rewrite splice_lookup by lia; assumption])).
  unfold mid. simpl.
  rewrite <- LP1 at 1. rewrite splice_all by lia.
  replace (length (positions s)) with (length V1) by lia.
  rewrite splice_all by lia. reflexivity.
Qed.

Lemma collideLoop_spec restitution (s : Sim A) :
  length (velocities s) = length (positions s) ->
  forEach (seq 0 (length (positions s))) (collideStep restitution) s
  = Ret tt (mkSim (collidePs restitution (positions s) (velocities s))
                  (collideVs restitution (positions s) (velocities s))
                  (springs s) (forces s)).
Proof.
  intros LV.
  set (P2 := collidePs restitution (positions s) (velocities s)).
  set (V2 := collideVs restitution (positions s) (velocities s)).
  assert (LP2 : length P2 = length (positions s)).
  { unfold P2, collidePs. rewrite length_zip_with. lia. }
  assert (LV2 : length V2 = length (velocities s)).
  { unfold V2, collideVs. rewrite length_zip_with. lia. }
  rewrite <- (mid_0 P2 V2 s) at 2.
  rewrite (forEach_seq_mid _ P2 V2 s) by
    (try lia; intros j p v Hj Ep Ev;
     (unfold P2, collidePs in Ep; unfold V2, collideVs in Ev;
      apply lookup_zip_with_Some in Ep as (p0 & v0 & -> & Ep0 & Ev0);
      apply lookup_zip_with_Some in Ev as (p0' & v0' & -> & Ep0' & Ev0');
      simplify_eq;
      apply collideStep_spec; simpl;
      rewrite splice_lookup by lia; assumption)).
  unfold mid. simpl.
  rewrite <- LP2 at 1. rewrite splice_all by lia.
  replace (length (positions s)) with (length V2) by lia.
  rewrite splice_all by lia. reflexivity.
Qed.
End Loops.

(** ** The whole step *)

Section Step.
Context {A : Type} `{Number A}.

Lemma applySpring_length stiffness damping pos vel (F F' : list (Vec3.t A)) sp :
  applySpring stiffness damping pos vel F sp = Some F' ->
  length F' = length F.
Proof.
  unfold applySpring. intros E.
  destruct (pos !! p1 sp); [|discriminate].
  destruct (pos !! p0 sp); [|discriminate].
  destruct (vel !! p1 sp); [|discriminate].
  destruct (vel !! p0 sp); [|discriminate].
  simpl in E.
  destruct (F !! p0 sp); [|discriminate]. simpl in E.
  destruct (<[_ := _]> F !! p1 sp); [|discriminate]. simpl in E.
  injection E as <-. now rewrite !length_insert.
Qed.

Lemma springLoop_length stiffness damping pos vel sps (F F' : list (Vec3.t A)) :
  springLoop stiffness damping pos vel sps F = Some F' ->
  length F' = length F.
Proof.
  revert F. induction sps as [|sp sps IH]; intros F E; simpl in E.
  - now injection E as <-.
  - destruct (applySpring _ _ _ _ F sp) as [F1|] eqn:E1; [|discriminate].
    simpl in E. rewrite (IH _ E). eapply applySpring_length; eassumption.
Qed.

Lemma applySpring_is_Some stiffness damping pos vel (F : list (Vec3.t A)) sp :
  is_Some (applySpring stiffness damping pos vel F sp) <->
  springOk pos vel F sp.
Proof.
  unfold applySpring, springOk. split.
  - intros [F' E].
    destruct (pos !! p1 sp) eqn:E1; [|discriminate].
    destruct (pos !! p0 sp) eqn:E2; [|discriminate].
    destruct (vel !! p1 sp) eqn:E3; [|discriminate].
    destruct (vel !! p0 sp) eqn:E4; [|discriminate].
    simpl in E.
    destruct (F !! p0 sp) eqn:E5; [|discriminate]. simpl in E.
    destruct (<[_ := _]> F !! p1 sp) eqn:E6; [|discriminate].
    apply lookup_lt_Some in E1, E2, E3, E4, E5, E6.
    rewrite length_insert in E6. tauto.
  - intros (H1 & H2 & H3 & H4 & H5 & H6).
    destruct (lookup_lt_is_Some_2 pos _ H2) as [pj ->].
    destruct (lookup_lt_is_Some_2 pos _ H1) as [pi ->].
    destruct (lookup_lt_is_Some_2 vel _ H4) as [vj ->].
    destruct (lookup_lt_is_Some_2 vel _ H3) as [vi ->].
    simpl.
    destruct (lookup_lt_is_Some_2 F _ H5) as [Fi ->]. simpl.
    destruct (lookup_lt_is_Some_2 (<[p0 sp := Vec3.inc Fi
               (springForce stiffness damping pi pj vi vj (rest sp))]> F)
               (p1 sp)) as [Fj ->]; [now rewrite length_insert|].
    simpl. eauto.
Qed.

Lemma springOk_length pos vel (F F' : list (Vec3.t A)) sp :
  length F' = length F -> springOk pos vel F sp -> springOk pos vel F' sp.
Proof. unfold springOk. intros ->. tauto. Qed.

Lemma springLoop_is_Some stiffness damping pos vel sps (F : list (Vec3.t A)) :
  is_Some (springLoop stiffness damping pos vel sps F) <->
  Forall (springOk pos vel F) sps.
Proof.
  revert F. induction sps as [|sp sps IH]; intros F; simpl.
  - split; [constructor | eauto].
  - split.
    + intros [F' E].
      destruct (applySpring _ _ _ _ F sp) as [F1|] eqn:E1; [|discriminate].
      simpl in E. constructor.
      * apply (applySpring_is_Some stiffness damping). eauto.
      * assert (HF : Forall (springOk pos vel F1) sps) by (apply IH; eauto).
        eapply Forall_impl; [exact HF|]. intros sp'.
        apply springOk_length. symmetry.
        eapply applySpring_length; eassumption.
    + intros HF. inversion HF as [|? ? Hsp Hsps]; subst.
      apply (applySpring_is_Some stiffness damping) in Hsp as [F1 E1].
      rewrite E1. simpl. apply IH.
      eapply Forall_impl; [exact Hsps|]. intros sp'.
      apply springOk_length. eapply applySpring_length; eassumption.
Qed.

(** The step on well-formed arrays: it completes, and the arrays it
    leaves are those of the four loops in sequence. *)
Lemma SimTimeStep_Ret dt pos vel sps stiffness damping particleMass
    (gravity : Vec3.t A) restitution F :
  length vel = length pos ->
  springLoop stiffness damping pos vel sps
    (gravityForces particleMass gravity (length pos)) = Some F ->
  let V1 := integrateVs dt particleMass F vel in
  let P1 := integratePs dt V1 pos in
  SimTimeStep dt pos vel sps stiffness damping particleMass gravity restitution
  = Ret tt (mkSim (collidePs restitution P1 V1) (collideVs restitution P1 V1)
                  sps F).
Proof.
  intros LV EF V1 P1. unfold SimTimeStep, stepBody.
  rewrite gets_bind. simpl.
  erewrite bind_Ret by reflexivity.
  rewrite gets_bind. simpl.
  erewrite bind_Ret by (apply forEach_springs_Some; simpl; exact EF).
  unfold withForces; simpl.
  pose proof (springLoop_length _ _ _ _ _ _ _ EF) as LF.
  unfold gravityForces in LF. rewrite length_replicate in LF.
  erewrite bind_Ret.
  2:{ apply (integrateLoop_spec dt particleMass (mkSim pos vel sps F));
      simpl; assumption. }
  simpl. fold V1. fold P1.
  assert (LP1 : length P1 = length pos).
  { unfold P1, integratePs, V1, integrateVs. rewrite !length_zip_with. lia. }
  rewrite <- LP1.
  apply (collideLoop_spec restitution (mkSim P1 V1 sps F)). simpl.
  unfold P1, integratePs, V1, integrateVs. rewrite !length_zip_with. lia.
Qed.

(** A spring that refers to a missing particle makes the step throw in
    loop 2, before [positions] or [velocities] are written. *)
Lemma SimTimeStep_Throw dt pos vel sps stiffness damping particleMass
    (gravity : Vec3.t A) restitution :
  springLoop stiffness damping pos vel sps
    (gravityForces particleMass gravity (length pos)) = None ->
  exists F',
    SimTimeStep dt pos vel sps stiffness damping particleMass gravity
      restitution = Throw (mkSim pos vel sps F').
Proof.
  intros EF. unfold SimTimeStep, stepBody.
  rewrite gets_bind. simpl.
  erewrite bind_Ret by reflexivity.
  rewrite gets_bind. simpl.
  destruct (forEach_springs_None stiffness damping sps
              (mkSim pos vel sps (gravityForces particleMass gravity (length pos)))
              EF) as [F' E'].
  exists F'. now erewrite bind_Throw by exact E'.
Qed.

(** *** What every run preserves *)

Lemma sameShape_refl (s : Sim A) : sameShape s s.
Proof. now unfold sameShape. Qed.

Lemma sameShape_trans (s1 s2 s3 : Sim A) :
  sameShape s1 s2 -> sameShape s2 s3 -> sameShape s1 s3.
Proof. unfold sameShape. intros (-> & -> & ->) (-> & -> & ->). tauto. Qed.

Lemma preserves_ret {T} (v : T) : preserves (ret v : M A T).
Proof. intros s. apply sameShape_refl. Qed.

Lemma preserves_gets {T} (f : Sim A -> T) : preserves (gets f).
Proof. intros s. apply sameShape_refl. Qed.

Lemma preserves_deref {T} (o : option T) : preserves (deref o : M A T).
Proof. intros s. destruct o; apply sameShape_refl. Qed.

Lemma preserves_modify (f : Sim A -> Sim A) :
  (forall s, sameShape s (f s)) -> preserves (modify f).
Proof. intros Hf s. apply Hf. Qed.

Lemma preserves_bind {T U} (m : M A T) (k : T -> M A U) :
  preserves m -> (forall v, preserves (k v)) -> preserves (m ≫= k).
Proof.
  intros Hm Hk s. specialize (Hm s).
  unfold mbind, M_bind, bind. destruct (m s) as [v s'|s']; simpl in *.
  - eapply sameShape_trans; [exact Hm | apply Hk].
  - exact Hm.
Qed.

Lemma preserves_if {T} (b : bool) (m1 m2 : M A T) :
  preserves m1 -> preserves m2 -> preserves (if b then m1 else m2).
Proof. now destruct b. Qed.

Lemma preserves_forEach {T} (l : list T) (body : T -> M A unit) :
  (forall a, preserves (body a)) -> preserves (forEach l body).
Proof.
  intros Hb. induction l as [|a l IH]; simpl.
  - apply preserves_ret.
  - apply preserves_bind; [apply Hb | intros _; exact IH].
Qed.

Lemma preserves_updForce i g : preserves (updForce i g : M A unit).
Proof.
  unfold updForce.
  apply preserves_bind; [apply preserves_gets|intros o].
  apply preserves_bind; [apply preserves_deref|intros v].
  apply preserves_modify. intros s. now unfold sameShape.
Qed.

Lemma preserves_updVelocity i g : preserves (updVelocity i g : M A unit).
Proof.
  unfold updVelocity.
  apply preserves_bind; [apply preserves_gets|intros o].
  apply preserves_bind; [apply preserves_deref|intros v].
  apply preserves_modify. intros s. unfold sameShape; simpl.
  now rewrite length_insert.
Qed.

Lemma preserves_updPosition i g : preserves (updPosition i g : M A unit).
Proof.
  unfold updPosition.
  apply preserves_bind; [apply preserves_gets|intros o].
  apply preserves_bind; [apply preserves_deref|intros v].
  apply preserves_modify. intros s. unfold sameShape; simpl.
  now rewrite length_insert.
Qed.

Ltac preserves_tac :=
  repeat first
    [ apply preserves_updForce | apply preserves_updVelocity
    | apply preserves_updPosition | apply preserves_gets
    | apply preserves_deref | apply preserves_ret
    | apply preserves_if
    | apply preserves_forEach; intros ?
    | apply preserves_bind; [|intros ?] ].

Lemma preserves_stepBody (dt stiffness damping particleMass : A) gravity
    restitution :
  preserves (stepBody dt stiffness damping particleMass gravity restitution).
Proof.
  unfold stepBody, setForces, springStep, integrateStep, collideStep,
         collideAxis, clampBelow, clampAbove.
  preserves_tac.
  apply preserves_modify. intros s. now unfold sameShape.
Qed.

Lemma preserves_springSteps (stiffness damping : A) sps :
  preserves (forEach sps (springStep stiffness damping)).
Proof. unfold springStep. preserves_tac. Qed.

Lemma preserves_integrateStep (dt particleMass : A) i :
  preserves (integrateStep dt particleMass i).
Proof. unfold integrateStep. preserves_tac. Qed.

Lemma preserves_integrateSteps (dt particleMass : A) l :
  preserves (forEach l (integrateStep dt particleMass)).
Proof. apply preserves_forEach. apply preserves_integrateStep. Qed.
End Step.

(** ** Runs that only part of the state decides *)

Section SpringFree.
Context {A : Type} `{Number A}.

Lemma agree_refl (s : Sim A) : agree s s.
Proof. now unfold agree. Qed.

Lemma springFree_ret {T} (v : T) : springFree (ret v : M A T).
Proof. intros s t Hst. simpl. auto. Qed.

Lemma springFree_gets {T} (f : Sim A -> T) :
  (forall s t, agree s t -> f s = f t) -> springFree (gets f).
Proof. intros Hf s t Hst. simpl. auto. Qed.

Lemma springFree_deref {T} (o : option T) : springFree (deref o : M A T).
Proof. intros s t Hst. destruct o; simpl; auto. Qed.

Lemma springFree_modify (f : Sim A -> Sim A) :
  (forall s t, agree s t -> agree (f s) (f t)) -> springFree (modify f).
Proof. intros Hf s t Hst. simpl. auto. Qed.

Lemma springFree_bind {T U} (m : M A T) (k : T -> M A U) :
  springFree m -> (forall v, springFree (k v)) -> springFree (m ≫= k).
Proof.
  intros Hm Hk s t Hst. specialize (Hm s t Hst).
  unfold mbind, M_bind, bind.
  destruct (m s) as [v s'|s'], (m t) as [v' t'|t']; simpl in *; try tauto.
  destruct Hm as [<- Hm]. now apply Hk.
Qed.

Lemma springFree_if {T} (b : bool) (m1 m2 : M A T) :
  springFree m1 -> springFree m2 -> springFree (if b then m1 else m2).
Proof. now destruct b. Qed.

Lemma springFree_forEach {T} (l : list T) (body : T -> M A unit) :
  (forall a, springFree (body a)) -> springFree (forEach l body).
Proof.
  intros Hb. induction l as [|a l IH]; simpl.
  - apply springFree_ret.
  - apply springFree_bind; [apply Hb | intros _; exact IH].
Qed.

Ltac agree_tac :=
  let s := fresh "s" in let t := fresh "t" in
  intros s t (? & ? & ?); unfold agree; simpl; repeat split; congruence.

Ltac springFree_tac :=
  repeat first
    [ apply springFree_ret | apply springFree_deref
    | apply springFree_gets; agree_tac
    | apply springFree_modify; agree_tac
    | apply springFree_if
    | apply springFree_forEach; intros ?
    | apply springFree_bind; [|intros ?] ].

Lemma springFree_integrateAndCollide (dt particleMass restitution : A) n :
  springFree (integrateAndCollide dt particleMass restitution n).
Proof.
  unfold integrateAndCollide, integrateStep, collideStep, collideAxis,
         clampBelow, clampAbove, updVelocity, updPosition.
  springFree_tac.
Qed.

(** The step is loop 1, then loop 2, then loops 3 and 4. *)
Lemma SimTimeStep_unfold dt pos vel sps stiffness damping particleMass
    (gravity : Vec3.t A) restitution :
  SimTimeStep dt pos vel sps stiffness damping particleMass gravity restitution
  = (forEach sps (springStep stiffness damping);;
     integrateAndCollide dt particleMass restitution (length pos))
      (mkSim pos vel sps (gravityForces particleMass gravity (length pos))).
Proof. reflexivity. Qed.

(** *** Statements that completed *)

Lemma bind_Ret_inv {T U} (m : M A T) (k : T -> M A U) s v s' :
  (m ≫= k) s = Ret v s' ->
  exists u t, m s = Ret u t /\ k u t = Ret v s'.
Proof.
  unfold mbind, M_bind, bind.
  destruct (m s) as [u t|t]; [eauto | discriminate].
Qed.

(** Loop invariants for a counting loop that completed. *)
Lemma forEach_seq_inv (I : nat -> Sim A -> Prop) (body : nat -> M A unit)
    n a s s' :
  (forall k t t', (a <= k < a + n)%nat -> I k t ->
                  body k t = Ret tt t' -> I (S k) t') ->
  I a s ->
  forEach (seq a n) body s = Ret tt s' ->
  I (a + n)%nat s'.
Proof.
  revert a s. induction n as [|n IH]; intros a s Hb Ha E; simpl in E.
  - injection E as <-. now replace (a + 0)%nat with a by lia.
  - apply bind_Ret_inv in E as ([] & t & E1 & E2).
    replace (a + S n)%nat with (S a + n)%nat by lia.
    apply (IH (S a) t); [|apply (Hb a s t); (lia || assumption)|assumption].
    intros k u u' Hk. apply Hb. lia.
Qed.

Lemma integrateStep_Ret_inv (dt particleMass : A) i s s' :
  integrateStep dt particleMass i s = Ret tt s' ->
  (i < length (velocities s))%nat.
Proof.
  unfold integrateStep. rewrite gets_bind.
  destruct (forces s !! i) as [F|]; [|discriminate].
  rewrite deref_Some_bind. intros E.
  apply bind_Ret_inv in E as ([] & t & E1 & _).
  unfold updVelocity in E1. rewrite gets_bind in E1.
  destruct (velocities s !! i) as [v|] eqn:Ev; [|discriminate].
  eapply lookup_lt_Some; eassumption.
Qed.
End SpringFree.

(** ** Properties that hold in every number system *)

Section AnyNumber.
Context {A : Type} `{Number A}.
Local Open Scope num_scope.

(** C1 (amended): for a spring whose endpoints exist, the contribution
    [f = fs + fd], both along the unit vector from [p0] to [p1], is added
    to the force accumulator of [p0] and subtracted from the accumulator
    of [p1]; no other accumulator, position or velocity changes.  (When
    [p0 = p1] the one accumulator receives [+f] and then [-f].) *)
Theorem C1_spring_force_on_endpoints (stiffness damping : A)
    (sp : Spring A) (s : Sim A) pi pj vi vj Fi Fj :
  positions s !! p0 sp = Some pi ->
  positions s !! p1 sp = Some pj ->
  velocities s !! p0 sp = Some vi ->
  velocities s !! p1 sp = Some vj ->
  forces s !! p0 sp = Some Fi ->
  forces s !! p1 sp = Some Fj ->
  let d := Vec3.sub pj pi in
  let dir := Vec3.unit d in
  let fs := Vec3.mul dir (stiffness * (Vec3.len d - rest sp)) in
  let fd := Vec3.mul dir (damping * Vec3.dot (Vec3.sub vj vi) dir) in
  let f := Vec3.add fs fd in
  exists s',
    springStep stiffness damping sp s = Ret tt s' /\
    positions s' = positions s /\
    velocities s' = velocities s /\
    (p0 sp <> p1 sp ->
       forces s' !! p0 sp = Some (Vec3.inc Fi f) /\
       forces s' !! p1 sp = Some (Vec3.dec Fj f)) /\
    (p0 sp = p1 sp ->
       forces s' !! p0 sp = Some (Vec3.dec (Vec3.inc Fi f) f)) /\
    (forall k, k <> p0 sp -> k <> p1 sp -> forces s' !! k = forces s !! k).
Proof.
  intros Epi Epj Evi Evj EFi EFj d dir fs fd f.
  pose proof (lookup_lt_Some _ _ _ EFi) as Li.
  pose proof (lookup_lt_Some _ _ _ EFj) as Lj.
  destruct (lookup_lt_is_Some_2 (<[p0 sp := Vec3.inc Fi f]> (forces s)) (p1 sp))
    as [Fj' EFj']; [now rewrite length_insert|].
  assert (E : applySpring stiffness damping (positions s) (velocities s)
                (forces s) sp
              = Some (<[p1 sp := Vec3.dec Fj' f]>
                        (<[p0 sp := Vec3.inc Fi f]> (forces s)))).
  { unfold applySpring. rewrite Epi, Epj, Evi, Evj. simpl.
    rewrite EFi. simpl. fold d dir fs fd f.
    unfold springForce. fold d dir fs fd f. rewrite EFj'. reflexivity. }
  eexists. split; [apply springStep_Some; exact E|].
  simpl. split; [reflexivity|]. split; [reflexivity|].
  split; [|split].
  - intros Hne.
    rewrite list_lookup_insert_ne in EFj' by assumption.
    assert (Fj' = Fj) as -> by congruence.
    split.
    + rewrite list_lookup_insert_ne by auto.
      now rewrite list_lookup_insert_eq.
    + apply list_lookup_insert_eq. now rewrite length_insert.
  - intros Heq. rewrite Heq in *.
    rewrite list_lookup_insert_eq in EFj' by assumption.
    injection EFj' as <-.
    apply list_lookup_insert_eq. now rewrite length_insert.
  - intros k Hk0 Hk1. now rewrite !list_lookup_insert_ne by auto.
Qed.

(** C8 (amended): the step validates nothing at entry.  Whatever [dt] and
    [particleMass] are, it completes when the two arrays have one length
    and every spring index is below it; a spring index outside that range
    makes it throw in loop 2, leaving positions and velocities as they
    were. *)
Theorem C8_no_entry_validation (dt stiffness damping particleMass : A)
    pos vel sps (gravity : Vec3.t A) restitution :
  let r := SimTimeStep dt pos vel sps stiffness damping particleMass
             gravity restitution in
  (length vel = length pos ->
   Forall (fun sp => (p0 sp < length pos)%nat /\ (p1 sp < length pos)%nat)
     sps ->
   completes r = true) /\
  (Exists (fun sp => (length pos <= p0 sp)%nat \/ (length pos <= p1 sp)%nat)
     sps ->
   completes r = false /\
   positions (finalState r) = pos /\ velocities (finalState r) = vel).
Proof.
  intros r. subst r. split.
  - intros LV Hsps.
    destruct (proj2 (springLoop_is_Some stiffness damping pos vel sps
                (gravityForces particleMass gravity (length pos))))
      as [F EF].
    { eapply Forall_impl; [exact Hsps|]. intros sp [H0 H1].
      unfold springOk, gravityForces. rewrite length_replicate, LV. tauto. }
    now rewrite (SimTimeStep_Ret dt pos vel sps _ _ _ _ restitution F LV EF).
  - intros Hex.
    destruct (springLoop stiffness damping pos vel sps
                (gravityForces particleMass gravity (length pos)))
      as [F|] eqn:EF.
    + exfalso.
      assert (HF : Forall (springOk pos vel
                     (gravityForces particleMass gravity (length pos))) sps).
      { apply (springLoop_is_Some stiffness damping). eauto. }
      apply Exists_exists in Hex as (sp & Hin & Hsp).
      rewrite Forall_forall in HF. specialize (HF sp Hin).
      unfold springOk in HF. lia.
    + destruct (SimTimeStep_Throw dt pos vel sps _ _ _ _ restitution EF)
        as [F' ->].
      simpl. auto.
Qed.

(** C9: whether the step completes or throws, the spring records and the
    lengths of [positions] and [velocities] are those of the call. *)
Theorem C9_springs_and_counts_unchanged (dt stiffness damping particleMass : A)
    pos vel sps (gravity : Vec3.t A) restitution :
  let r := SimTimeStep dt pos vel sps stiffness damping particleMass
             gravity restitution in
  springs (finalState r) = sps /\
  length (positions (finalState r)) = length pos /\
  length (velocities (finalState r)) = length vel.
Proof.
  intros r. subst r. unfold SimTimeStep.
  exact (preserves_stepBody dt stiffness damping particleMass gravity
           restitution (mkSim pos vel sps [])).
Qed.
End AnyNumber.

(** ** The force array under loop 2 *)

Section SpringArray.
Context {A : Type} `{Number A}.

Lemma insert_alter_lookup {T} (g : T -> T) (l : list T) i a :
  l !! i = Some a -> <[i := g a]> l = alter g i l.
Proof.
  intros Ea. apply list_eq. intros j.
  destruct (decide (i = j)) as [<-|Hne].
  - rewrite list_lookup_insert_eq by (eapply lookup_lt_Some; eassumption).
    now rewrite list_lookup_alter_eq, Ea.
  - now rewrite list_lookup_insert_ne, list_lookup_alter_ne.
Qed.

Lemma applySpring_alter (stiffness damping : A) pos vel F sp :
  springOk pos vel F sp ->
  applySpring stiffness damping pos vel F sp =
    let f := forceOf stiffness damping pos vel sp in
    Some (subFrom f (p1 sp) (addTo f (p0 sp) F)).
Proof.
  intros (H1 & H2 & H3 & H4 & H5 & H6).
  unfold applySpring, forceOf.
  destruct (lookup_lt_is_Some_2 pos _ H2) as [pj ->].
  destruct (lookup_lt_is_Some_2 pos _ H1) as [pi ->].
  destruct (lookup_lt_is_Some_2 vel _ H4) as [vj ->].
  destruct (lookup_lt_is_Some_2 vel _ H3) as [vi ->].
  simpl.
  destruct (lookup_lt_is_Some_2 F _ H5) as [Fi EFi]. rewrite EFi. simpl.
  rewrite (insert_alter_lookup (fun v => Vec3.inc v _) F _ _ EFi).
  fold (addTo (springForce stiffness damping pi pj vi vj (rest sp)) (p0 sp) F).
  destruct (lookup_lt_is_Some_2
              (addTo (springForce stiffness damping pi pj vi vj (rest sp))
                 (p0 sp) F) (p1 sp)) as [Fj EFj].
  { unfold addTo. now rewrite length_alter. }
  rewrite EFj. simpl.
  now rewrite (insert_alter_lookup (fun v => Vec3.dec v _) _ _ _ EFj).
Qed.

Lemma springLoop_app (stiffness damping : A) pos vel l1 l2 F :
  springLoop stiffness damping pos vel (l1 ++ l2) F =
    springLoop stiffness damping pos vel l1 F
      ≫= springLoop stiffness damping pos vel l2.
Proof.
  revert F. induction l1 as [|sp l1 IH]; intros F; simpl; [reflexivity|].
  destruct (applySpring stiffness damping pos vel F sp) as [F1|]; simpl;
    [apply IH | reflexivity].
Qed.

(** The spring list decides the outcome only through the forces that
    loop 2 leaves. *)
Lemma visible_springLoop dt pos vel sps sps' (stiffness damping : A)
    particleMass gravity restitution :
  springLoop stiffness damping pos vel sps
    (gravityForces particleMass gravity (length pos))
  = springLoop stiffness damping pos vel sps'
      (gravityForces particleMass gravity (length pos)) ->
  visible (SimTimeStep dt pos vel sps stiffness damping particleMass
             gravity restitution)
  = visible (SimTimeStep dt pos vel sps' stiffness damping particleMass
               gravity restitution).
Proof.
  intros E. rewrite !SimTimeStep_unfold.
  set (F0 := gravityForces particleMass gravity (length pos)) in *.
  destruct (springLoop stiffness damping pos vel sps' F0) as [F|] eqn:E'.
  - erewrite (bind_Ret _ _ (mkSim pos vel sps F0))
      by (apply forEach_springs_Some; exact E).
    erewrite (bind_Ret _ _ (mkSim pos vel sps' F0))
      by (apply forEach_springs_Some; exact E').
    pose proof (springFree_integrateAndCollide dt particleMass restitution
                  (length pos)
                  (withForces (mkSim pos vel sps F0) F)
                  (withForces (mkSim pos vel sps' F0) F)) as Hag.
    unfold withForces in *; simpl in *.
    specialize (Hag (conj eq_refl (conj eq_refl eq_refl))).
    unfold visible.
    destruct (integrateAndCollide _ _ _ _ (mkSim pos vel sps F)) as [[] s1|s1],
             (integrateAndCollide _ _ _ _ (mkSim pos vel sps' F)) as [[] s2|s2];
      simpl in *; try tauto.
    + destruct Hag as (_ & -> & -> & _). reflexivity.
    + destruct Hag as (-> & -> & _). reflexivity.
  - destruct (forEach_springs_None stiffness damping sps
                (mkSim pos vel sps F0) E) as [F1 E1].
    destruct (forEach_springs_None stiffness damping sps'
                (mkSim pos vel sps' F0) E') as [F2 E2].
    erewrite (bind_Throw _ _ (mkSim pos vel sps F0)) by exact E1.
    erewrite (bind_Throw _ _ (mkSim pos vel sps' F0)) by exact E2.
    reflexivity.
Qed.
End SpringArray.

(** ** The step over the real numbers *)

Section Reals.
Local Open Scope R_scope.

Lemma Rltb_true a b : a < b -> Rltb a b = true.
Proof.
  intros Hab. unfold Rltb. destruct (Rlt_dec a b); [reflexivity|contradiction].
Qed.

Lemma Rltb_false a b : ~ a < b -> Rltb a b = false.
Proof.
  intros Hab. unfold Rltb. destruct (Rlt_dec a b); [contradiction|reflexivity].
Qed.

Lemma Reqb_true a b : a = b -> Reqb a b = true.
Proof.
  intros Hab. unfold Reqb.
  destruct (Req_dec_T a b); [reflexivity|contradiction].
Qed.

Lemma Reqb_false a b : a <> b -> Reqb a b = false.
Proof.
  intros Hab. unfold Reqb.
  destruct (Req_dec_T a b); [contradiction|reflexivity].
Qed.

Lemma v3_ext (a b : Vec3.t R) :
  Vec3.x a = Vec3.x b -> Vec3.y a = Vec3.y b -> Vec3.z a = Vec3.z b -> a = b.
Proof. destruct a, b; simpl. now intros -> -> ->. Qed.

(** *** Collision on one coordinate *)

Lemma collide1_inside e p v : -1 <= p <= 1 -> collide1 e (p, v) = (p, v).
Proof.
  intros Hp. unfold collide1, clampLow, clampHigh; simpl.
  rewrite (Rltb_false p (Ropp 1)) by lra. simpl.
  now rewrite (Rltb_false 1 p) by lra.
Qed.

Lemma collide1_below e p v :
  p < -1 ->
  collide1 e (p, v) = (Ropp 1, if Rltb v 0 then - v * e else v).
Proof.
  intros Hp. unfold collide1, clampLow, clampHigh; simpl.
  rewrite (Rltb_true p (Ropp 1)) by lra. simpl.
  now rewrite (Rltb_false 1 (Ropp 1)) by lra.
Qed.

Lemma collide1_above e p v :
  1 < p ->
  collide1 e (p, v) = (1, if Rltb 0 v then - v * e else v).
Proof.
  intros Hp. unfold collide1, clampLow, clampHigh; simpl.
  rewrite (Rltb_false p (Ropp 1)) by lra. simpl.
  now rewrite (Rltb_true 1 p) by lra.
Qed.

Lemma collide1_inBox e p v : -1 <= (collide1 e (p, v)).1 <= 1.
Proof.
  destruct (Rlt_dec p (-1)) as [Hlo|Hlo].
  - rewrite collide1_below by assumption. simpl. lra.
  - destruct (Rlt_dec 1 p) as [Hhi|Hhi].
    + rewrite collide1_above by assumption. simpl. lra.
    + rewrite collide1_inside by lra. simpl. lra.
Qed.

Lemma collideParticle_components e (p v : Vec3.t R) :
  collideParticle e (p, v) =
    (Vec3.mk (collide1 e (Vec3.x p, Vec3.x v)).1
             (collide1 e (Vec3.y p, Vec3.y v)).1
             (collide1 e (Vec3.z p, Vec3.z v)).1,
     Vec3.mk (collide1 e (Vec3.x p, Vec3.x v)).2
             (collide1 e (Vec3.y p, Vec3.y v)).2
             (collide1 e (Vec3.z p, Vec3.z v)).2).
Proof. now destruct p, v. Qed.

Lemma collideParticle_inBox e p v : inBox (collideParticle e (p, v)).1.
Proof.
  rewrite collideParticle_components. unfold inBox; simpl.
  auto using collide1_inBox.
Qed.

Lemma collideParticle_inside e p v :
  inBox p -> collideParticle e (p, v) = (p, v).
Proof.
  intros (Hx & Hy & Hz). rewrite collideParticle_components.
  rewrite !collide1_inside by assumption. now destruct p, v.
Qed.

(** Loop 4 leaves every position it has handled in the cube: a call that
    completes has handled all of them. *)
Lemma completed_positions_in_box dt pos vel sps stiffness damping particleMass
    gravity restitution s' :
  SimTimeStep dt pos vel sps stiffness damping particleMass gravity restitution
    = Ret tt s' ->
  Forall inBox (positions s').
Proof.
  rewrite SimTimeStep_unfold. intros E.
  apply bind_Ret_inv in E as ([] & t2 & E2 & E).
  unfold integrateAndCollide in E.
  apply bind_Ret_inv in E as ([] & t3 & E3 & E4).
  pose proof (preserves_springSteps stiffness damping sps
                (mkSim pos vel sps (gravityForces particleMass gravity (length pos))))
    as (_ & LP2 & _).
  rewrite E2 in LP2. simpl in LP2.
  pose proof (preserves_integrateSteps dt particleMass (seq 0 (length pos)) t2)
    as (_ & LP3 & _).
  rewrite E3 in LP3. simpl in LP3.
  assert (LV3 : (length pos <= length (velocities t3))%nat).
  { apply (forEach_seq_inv (fun k t => (k <= length (velocities t))%nat)
             (integrateStep dt particleMass) (length pos) 0%nat t2 t3);
      [|lia|exact E3].
    intros k t t' _ _ Ek.
    pose proof (integrateStep_Ret_inv _ _ _ _ _ Ek) as Hk.
    pose proof (preserves_integrateStep dt particleMass k t) as (_ & _ & LV).
    rewrite Ek in LV. simpl in LV. lia. }
  set (N := length pos) in *.
  assert (I : (length (positions s') = N /\
               N <= length (velocities s') /\
               forall i p, i < 0 + N -> positions s' !! i = Some p ->
                           inBox p)%nat).
  { apply (forEach_seq_inv
             (fun k t => (length (positions t) = N /\
                          N <= length (velocities t) /\
                          forall i p, i < k -> positions t !! i = Some p ->
                                      inBox p)%nat)
             (collideStep restitution) N 0%nat t3 s'); [| |exact E4].
    - intros k t t' Hk (LP & LV & Hbox) Ek.
      destruct (lookup_lt_is_Some_2 (positions t) k) as [p Ep]; [lia|].
      destruct (lookup_lt_is_Some_2 (velocities t) k) as [v Ev]; [lia|].
      rewrite (collideStep_spec restitution k t p v Ep Ev) in Ek.
      injection Ek as <-. simpl.
      rewrite !length_insert. split; [assumption|]. split; [assumption|].
      intros i q Hi Eq.
      destruct (decide (i = k)) as [->|Hne].
      + rewrite list_lookup_insert_eq in Eq by lia.
        injection Eq as <-. apply collideParticle_inBox.
      + rewrite list_lookup_insert_ne in Eq by auto.
        apply (Hbox i q); [lia|assumption].
    - split; [lia|]. split; [assumption|]. intros i p Hi. lia. }
  destruct I as (LP & _ & Hbox).
  apply Forall_lookup. intros i p Ep.
  apply (Hbox i p); [|assumption].
  apply lookup_lt_Some in Ep. lia.
Qed.

(** C2: in exact arithmetic, for a call inside the contract of the
    specification (as many velocities as positions, springs between
    existing particles, a mass other than zero), the step completes, and
    after it every coordinate of every position is in [[-1, 1]]. *)
Theorem C2_positions_in_box dt pos vel sps stiffness damping particleMass
    gravity restitution :
  length vel = length pos ->
  Forall (fun sp => (p0 sp < length pos)%nat /\ (p1 sp < length pos)%nat) sps ->
  particleMass <> 0 ->
  exists s',
    SimTimeStep dt pos vel sps stiffness damping particleMass gravity
      restitution = Ret tt s' /\
    Forall inBox (positions s').
Proof.
  intros LV Hsps _.
  destruct (proj2 (springLoop_is_Some stiffness damping pos vel sps
              (gravityForces particleMass gravity (length pos))))
    as [F EF].
  { eapply Forall_impl; [exact Hsps|]. intros sp [H0 H1].
    unfold springOk, gravityForces. rewrite length_replicate, LV. tauto. }
  pose proof (SimTimeStep_Ret dt pos vel sps stiffness damping particleMass
                gravity restitution F LV EF) as E.
  cbv zeta in E. eexists. split; [exact E|].
  exact (completed_positions_in_box _ _ _ _ _ _ _ _ _ _ E).
Qed.

(** The two-particle scene: the spring pushes [p1], which starts on the
    wall [x = 1], out of the cube, and loop 4 puts it back. *)
Lemma C2_witness :
  exists s',
    SimTimeStep 0.01 twoParticles atRest [compressedSpring] 1 0 1 (v3 0 0 0)
      0.5 = Ret tt s' /\
    Forall inBox (positions s').
Proof.
  apply (C2_positions_in_box 0.01 twoParticles atRest [compressedSpring]
           1 0 1 (v3 0 0 0) 0.5);
    [reflexivity | repeat constructor | lra].
Defined.

(** *** The scenes of the specification *)

Ltac vlist :=
  repeat (apply (f_equal2 cons); [apply v3_ext; simpl|]); try reflexivity.

Ltac collide_eval :=
  repeat match goal with
  | |- context [collide1 ?e (?p, ?v)] =>
      first [ rewrite (collide1_inside e p v) by nra
            | rewrite (collide1_above e p v) by nra
            | rewrite (collide1_below e p v) by nra ]
  end;
  repeat match goal with
  | |- context [Rltb ?a ?b] =>
      first [ rewrite (Rltb_true a b) by nra
            | rewrite (Rltb_false a b) by nra ]
  end.

Lemma compressedSpring_force :
  springForce 1 0 (v3 0 0 0) (v3 1 0 0) (v3 0 0 0) (v3 0 0 0) 2 = v3 (-1) 0 0.
Proof.
  assert (HL : Vec3.len (Vec3.sub (v3 1 0 0) (v3 0 0 0)) = 1).
  { unfold Vec3.len, Vec3.dot; simpl.
    match goal with |- sqrt ?a = _ => replace a with 1 by lra end.
    apply sqrt_1. }
  unfold springForce, Vec3.unit. cbv zeta. rewrite HL.
  simpl. rewrite Reqb_false by lra.
  apply v3_ext; simpl; lra.
Qed.

Lemma twoParticles_forces :
  springLoop 1 0 twoParticles atRest [compressedSpring]
    (gravityForces 1 (v3 0 0 0) (length twoParticles))
  = Some [v3 (-1) 0 0; v3 1 0 0].
Proof.
  simpl. rewrite compressedSpring_force. apply f_equal. vlist; lra.
Qed.

(** One step of the two-particle scene, for a step of at most 1. *)
Lemma twoParticles_step dt e :
  0 < dt <= 1 ->
  exists s',
    SimTimeStep dt twoParticles atRest [compressedSpring] 1 0 1 (v3 0 0 0) e
      = Ret tt s' /\
    velocities s' = [v3 (- dt) 0 0; v3 (- dt * e) 0 0] /\
    positions s' = [v3 (- (dt * dt)) 0 0; v3 1 0 0].
Proof.
  intros Hdt.
  rewrite (SimTimeStep_Ret dt twoParticles atRest [compressedSpring] 1 0 1
             (v3 0 0 0) e _ eq_refl twoParticles_forces).
  eexists. split; [reflexivity|]. simpl.
  collide_eval. simpl.
  split; vlist; nra.
Qed.

(** C1 as stated fails: in the two-particle scene the accumulator of
    [p1] does not receive [+f], it receives [-f] (and [f] is not zero). *)
Lemma C1_counterexample :
  let f := springForce 1 0 (v3 0 0 0) (v3 1 0 0) (v3 0 0 0) (v3 0 0 0) 2 in
  ~ (exists s',
       springStep 1 0 compressedSpring twoParticlesSim = Ret tt s' /\
       forces s' !! 1%nat = Some (Vec3.inc (v3 0 0 0) f) /\
       forces s' !! 0%nat = Some (Vec3.dec (v3 0 0 0) f)).
Proof.
  intros f (s' & E & E1 & _). subst f.
  erewrite springStep_Some in E by reflexivity.
  injection E as <-. simpl in E1.
  rewrite compressedSpring_force in E1.
  injection E1 as Ex _ _. lra.
Qed.

(** C3: loop 3 computes [acceleration = force / particleMass], adds
    [acceleration * dt] to the velocity and then adds the new velocity
    times [dt] to the position; the free particle of the specification
    ends with [velocity.z = -0.1] and [position.z = 0.49]. *)
Theorem C3_semi_implicit_euler :
  (forall dt particleMass i (s : Sim R) F v p,
     forces s !! i = Some F ->
     velocities s !! i = Some v ->
     positions s !! i = Some p ->
     let acc := Vec3.div F particleMass in
     let v' := Vec3.inc v (Vec3.mul acc dt) in
     exists s',
       integrateStep dt particleMass i s = Ret tt s' /\
       velocities s' !! i = Some v' /\
       positions s' !! i = Some (Vec3.inc p (Vec3.mul v' dt))) /\
  (forall stiffness damping restitution,
     exists s',
       SimTimeStep 0.1 [v3 0 0 0.5] [v3 0 0 0] [] stiffness damping 1
         (v3 0 0 (-1)) restitution = Ret tt s' /\
       velocities s' = [v3 0 0 (-0.1)] /\
       positions s' = [v3 0 0 0.49]).
Proof.
  split.
  - intros dt particleMass i s F v p EF Ev Ep acc v'.
    eexists. split; [apply integrateStep_spec; eassumption|].
    simpl. split; apply list_lookup_insert_eq; eapply lookup_lt_Some;
      eassumption.
  - intros stiffness damping restitution.
    erewrite SimTimeStep_Ret; [|reflexivity|reflexivity].
    eexists. split; [reflexivity|]. simpl.
    collide_eval. simpl.
    split; vlist; lra.
Qed.

(** Loop 3 on the free particle. *)
Lemma C3_witness :
  exists s',
    integrateStep 0.1 1 0 (mkSim [v3 0 0 0.5] [v3 0 0 0] [] [v3 0 0 (-1)])
      = Ret tt s' /\
    velocities s' !! 0%nat
      = Some (Vec3.inc (v3 0 0 0) (Vec3.mul (Vec3.div (v3 0 0 (-1)) 1) 0.1)) /\
    positions s' !! 0%nat
      = Some (Vec3.inc (v3 0 0 0.5)
                (Vec3.mul (Vec3.inc (v3 0 0 0)
                             (Vec3.mul (Vec3.div (v3 0 0 (-1)) 1) 0.1)) 0.1)).
Proof.
  apply (proj1 C3_semi_implicit_euler 0.1 1 0%nat
           (mkSim [v3 0 0 0.5] [v3 0 0 0] [] [v3 0 0 (-1)])
           (v3 0 0 (-1)) (v3 0 0 0) (v3 0 0 0.5));
    reflexivity.
Defined.

(** The amended C1 on the two-particle scene. *)
Lemma C1_witness :
  let f := springForce 1 0 (v3 0 0 0) (v3 1 0 0) (v3 0 0 0) (v3 0 0 0) 2 in
  exists s',
    springStep 1 0 compressedSpring twoParticlesSim = Ret tt s' /\
    forces s' !! 0%nat = Some (Vec3.inc (v3 0 0 0) f) /\
    forces s' !! 1%nat = Some (Vec3.dec (v3 0 0 0) f).
Proof.
  intros f.
  destruct (C1_spring_force_on_endpoints 1 0 compressedSpring twoParticlesSim
              (v3 0 0 0) (v3 1 0 0) (v3 0 0 0) (v3 0 0 0) (v3 0 0 0) (v3 0 0 0)
              eq_refl eq_refl eq_refl eq_refl eq_refl eq_refl)
    as (s' & E & _ & _ & Hne & _).
  exists s'. split; [exact E|]. apply Hne. simpl. discriminate.
Defined.

Lemma get_set_ne d d' (a : R) (p : Vec3.t R) :
  d' <> d -> Vec3.get d' (Vec3.set d a p) = Vec3.get d' p.
Proof. destruct d, d'; simpl; congruence. Qed.

(** C5: on each axis of each particle, a position below [-1] becomes
    [-1] and the velocity is replaced by [-velocity * restitution] only
    when it is negative; a position above [1] becomes [1] and the
    velocity is reflected only when it is positive; the other axes are
    not touched.  The particle of the specification ends with
    [position.z = 1] and [velocity.z = -1 * restitution]. *)
Theorem C5_collision_per_axis :
  (forall restitution i d (s : Sim R) p v,
     positions s !! i = Some p ->
     velocities s !! i = Some v ->
     exists s' p' v',
       collideAxis restitution i d s = Ret tt s' /\
       positions s' !! i = Some p' /\
       velocities s' !! i = Some v' /\
       (Vec3.get d p < -1 ->
          Vec3.get d p' = -1 /\
          (Vec3.get d v < 0 -> Vec3.get d v' = - Vec3.get d v * restitution) /\
          (0 <= Vec3.get d v -> Vec3.get d v' = Vec3.get d v)) /\
       (1 < Vec3.get d p ->
          Vec3.get d p' = 1 /\
          (0 < Vec3.get d v -> Vec3.get d v' = - Vec3.get d v * restitution) /\
          (Vec3.get d v <= 0 -> Vec3.get d v' = Vec3.get d v)) /\
       (-1 <= Vec3.get d p <= 1 -> p' = p /\ v' = v) /\
       (forall d', d' <> d ->
          Vec3.get d' p' = Vec3.get d' p /\ Vec3.get d' v' = Vec3.get d' v)) /\
  (forall x y vx vy stiffness damping particleMass restitution,
     exists s' p' v',
       SimTimeStep 0.1 [v3 x y 0.95] [v3 vx vy 1] [] stiffness damping
         particleMass (v3 0 0 0) restitution = Ret tt s' /\
       positions s' = [p'] /\
       velocities s' = [v'] /\
       Vec3.z p' = 1 /\
       Vec3.z v' = -1 * restitution).
Proof.
  split.
  - intros e i d s p v Ep Ev.
    pose proof (lookup_lt_Some _ _ _ Ep) as Lp.
    pose proof (lookup_lt_Some _ _ _ Ev) as Lv.
    exists (setParticle i (collideDim e d (p, v)).1
                          (collideDim e d (p, v)).2 s),
           (collideDim e d (p, v)).1, (collideDim e d (p, v)).2.
    split; [now apply collideAxis_spec|].
    split; [now apply list_lookup_insert_eq|].
    split; [now apply list_lookup_insert_eq|].
    unfold collideDim; simpl. rewrite !get_set.
    split; [|split; [|split]].
    + intros Hlo. rewrite collide1_below by assumption. simpl.
      split; [lra|]. split; intros Hv.
      * now rewrite Rltb_true.
      * now rewrite Rltb_false by lra.
    + intros Hhi. rewrite collide1_above by assumption. simpl.
      split; [reflexivity|]. split; intros Hv.
      * now rewrite Rltb_true.
      * now rewrite Rltb_false by lra.
    + intros Hin. rewrite collide1_inside by assumption. simpl.
      now rewrite !set_get.
    + intros d' Hd. now rewrite !get_set_ne.
  - intros x y vx vy stiffness damping particleMass restitution.
    erewrite SimTimeStep_Ret; [|reflexivity|reflexivity].
    eexists _, _, _. split; [reflexivity|]. simpl.
    split; [reflexivity|]. split; [reflexivity|]. simpl.
    collide_eval. simpl. split; lra.
Qed.

(** A particle above the wall [z = 1], moving out, with restitution 0.5. *)
Lemma C5_witness :
  exists s' p' v',
    collideAxis 0.5 0 Vec3.dz (mkSim [v3 0 0 1.05] [v3 0 0 1] [] [v3 0 0 0])
      = Ret tt s' /\
    positions s' !! 0%nat = Some p' /\
    velocities s' !! 0%nat = Some v' /\
    Vec3.z p' = 1 /\ Vec3.z v' = - (1) * 0.5.
Proof.
  destruct (proj1 C5_collision_per_axis 0.5 0%nat Vec3.dz
              (mkSim [v3 0 0 1.05] [v3 0 0 1] [] [v3 0 0 0])
              (v3 0 0 1.05) (v3 0 0 1) eq_refl eq_refl)
    as (s' & p' & v' & E & Ep & Ev & _ & Hhi & _).
  exists s', p', v'. split; [exact E|]. split; [exact Ep|].
  split; [exact Ev|].
  destruct Hhi as (Hp & Hv & _); [simpl; lra|].
  split; [exact Hp|]. apply Hv. simpl. lra.
Defined.

(** C7 as stated fails for [dt = 0.01] and [restitution = 1]: after the
    step the x-velocity of [p1] is [-0.01]. *)
Lemma C7_counterexample :
  ~ (exists s' v0 v1,
       SimTimeStep 0.01 twoParticles atRest [compressedSpring] 1 0 1
         (v3 0 0 0) 1 = Ret tt s' /\
       velocities s' = [v0; v1] /\
       Vec3.x v0 < 0 /\ 0 < Vec3.x v1).
Proof.
  intros (s' & v0 & v1 & E & EV & _ & H1).
  destruct (twoParticles_step 0.01 1) as (t & Et & EVt & _); [lra|].
  rewrite Et in E. injection E as <-.
  rewrite EVt in EV. injection EV as _ <-. simpl in H1. lra.
Qed.

(** C7 (amended): in exact arithmetic, in the two-particle scene, for
    [0 < dt <= 1], loops 2 and 3 give particle [p0] the x-velocity [-dt]
    and particle [p1] the x-velocity [+dt]; [p1] starts on the wall
    [x = 1], so loop 4 puts it back at [x = 1] and replaces its x-velocity
    by [-dt * restitution].  After the step the x-velocity of [p0] is
    negative and that of [p1] is [-dt * restitution].  The statement is
    over the reals: in binary64 it needs [1 + dt * dt] to round above [1],
    as [pushedApart_binary64] and [pushedApart_tiny_binary64] show. *)
Theorem C7_compressed_spring_pushes_apart dt restitution :
  0 < dt <= 1 ->
  (exists P1 v0 v1,
     afterIntegration dt twoParticles atRest [compressedSpring] 1 0 1
       (v3 0 0 0) = Some (P1, [v0; v1]) /\
     Vec3.x v0 < 0 /\ 0 < Vec3.x v1) /\
  (exists s' q0 q1 v0 v1,
     SimTimeStep dt twoParticles atRest [compressedSpring] 1 0 1
       (v3 0 0 0) restitution = Ret tt s' /\
     positions s' = [q0; q1] /\
     velocities s' = [v0; v1] /\
     Vec3.x v0 < 0 /\
     Vec3.x q1 = 1 /\
     Vec3.x v1 = - dt * restitution).
Proof.
  intros Hdt. split.
  - unfold afterIntegration. rewrite twoParticles_forces. simpl.
    eexists _, _, _. split; [reflexivity|]. simpl. lra.
  - destruct (twoParticles_step dt restitution Hdt) as (s' & E & EV & EP).
    exists s', (v3 (- (dt * dt)) 0 0), (v3 1 0 0),
           (v3 (- dt) 0 0), (v3 (- dt * restitution) 0 0).
    simpl. repeat (split; [assumption || reflexivity || lra|]). reflexivity.
Qed.

(** The amended C7 at [dt = 0.01], [restitution = 0.5]. *)
Lemma C7_witness :
  exists s' v0 v1,
    SimTimeStep 0.01 twoParticles atRest [compressedSpring] 1 0 1
      (v3 0 0 0) 0.5 = Ret tt s' /\
    velocities s' = [v0; v1] /\
    Vec3.x v0 < 0 /\ Vec3.x v1 = - 0.01 * 0.5.
Proof.
  destruct (C7_compressed_spring_pushes_apart 0.01 0.5) as [_ Hs]; [lra|].
  destruct Hs as (s' & q0 & q1 & v0 & v1 & E & _ & EV & H0 & _ & H1).
  exists s', v0, v1.
  split; [exact E|]. split; [exact EV|]. split; [exact H0|]. lra.
Defined.

(** C8 as stated fails: a call with [dt = 0] and [particleMass = -1]
    completes. *)
Lemma C8_counterexample :
  malformed 0 (-1) 1 [] /\
  completes (SimTimeStep 0 [v3 0 0 0] [v3 0 0 0] [] 1 0 (-1) (v3 0 0 (-1)) 1)
    = true.
Proof.
  split.
  - left. lra.
  - now erewrite SimTimeStep_Ret by reflexivity.
Qed.

(** The amended C8: a malformed call that completes, and a spring to a
    missing particle that makes the call throw. *)
Lemma C8_witness :
  completes (SimTimeStep 0 [v3 0 0 0] [v3 0 0 0] [] 1 0 (-1) (v3 0 0 (-1)) 1)
    = true /\
  completes (SimTimeStep 0.1 [v3 0 0 0] [v3 0 0 0] [mkSpring 0%nat 5%nat 1]
               1 0 1 (v3 0 0 (-1)) 1) = false.
Proof.
  split.
  - apply (C8_no_entry_validation 0 1 0 (-1) [v3 0 0 0] [v3 0 0 0] []
             (v3 0 0 (-1)) 1); [reflexivity|constructor].
  - apply (C8_no_entry_validation 0.1 1 0 1 [v3 0 0 0] [v3 0 0 0]
             [mkSpring 0%nat 5%nat 1] (v3 0 0 (-1)) 1).
    constructor. simpl. lia.
Defined.

(** *** Loop 2 in any order *)

Lemma lookup_alter_fmap {T} (g : T -> T) (i : nat) (l : list T) (n : nat) :
  alter g i l !! n = (if decide (i = n) then g else fun a => a) <$> l !! n.
Proof.
  rewrite list_lookup_alter. case_decide; subst; [reflexivity|].
  now destruct (l !! n).
Qed.

Lemma spring_alters_comm (f1 f2 : Vec3.t R) i1 j1 i2 j2 F :
  subFrom f2 j2 (addTo f2 i2 (subFrom f1 j1 (addTo f1 i1 F)))
  = subFrom f1 j1 (addTo f1 i1 (subFrom f2 j2 (addTo f2 i2 F))).
Proof.
  apply list_eq. intros n. unfold subFrom, addTo.
  rewrite !lookup_alter_fmap.
  destruct (F !! n) as [v|]; simpl; [|reflexivity].
  f_equal. repeat case_decide; apply v3_ext; simpl; lra.
Qed.

Lemma applySpring_None_length stiffness damping pos vel
    (F F' : list (Vec3.t R)) sp :
  length F' = length F ->
  applySpring stiffness damping pos vel F sp = None ->
  applySpring stiffness damping pos vel F' sp = None.
Proof.
  intros L E.
  destruct (applySpring stiffness damping pos vel F' sp) as [F1|] eqn:E1;
    [|reflexivity].
  assert (Hok : springOk pos vel F sp).
  { apply (springOk_length pos vel F'); [congruence|].
    apply (applySpring_is_Some stiffness damping). eauto. }
  apply (applySpring_is_Some stiffness damping) in Hok as [F2 E2].
  congruence.
Qed.

Lemma applySpring_swap stiffness damping pos vel (F : list (Vec3.t R)) a b :
  (applySpring stiffness damping pos vel F a
     ≫= fun F' => applySpring stiffness damping pos vel F' b)
  = (applySpring stiffness damping pos vel F b
       ≫= fun F' => applySpring stiffness damping pos vel F' a).
Proof.
  destruct (applySpring stiffness damping pos vel F a) as [Fa|] eqn:Ea,
           (applySpring stiffness damping pos vel F b) as [Fb|] eqn:Eb;
    simpl.
  - pose proof (applySpring_length _ _ _ _ _ _ _ Ea) as La.
    pose proof (applySpring_length _ _ _ _ _ _ _ Eb) as Lb.
    assert (Ha : springOk pos vel F a)
      by (apply (applySpring_is_Some stiffness damping); eauto).
    assert (Hb : springOk pos vel F b)
      by (apply (applySpring_is_Some stiffness damping); eauto).
    rewrite applySpring_alter in Ea, Eb by assumption.
    injection Ea as <-. injection Eb as <-.
    rewrite !applySpring_alter
      by (eapply springOk_length; [|eassumption];
          unfold subFrom, addTo; now rewrite !length_alter).
    simpl. f_equal. apply spring_alters_comm.
  - apply applySpring_None_length with (F := F); [|assumption].
    eapply applySpring_length; eassumption.
  - symmetry. apply applySpring_None_length with (F := F); [|assumption].
    eapply applySpring_length; eassumption.
  - reflexivity.
Qed.

Lemma springLoop_perm stiffness damping pos vel sps sps' :
  Permutation sps sps' ->
  forall F : list (Vec3.t R),
    springLoop stiffness damping pos vel sps F
    = springLoop stiffness damping pos vel sps' F.
Proof.
  induction 1 as [|a l l' _ IH|a b l|l1 l2 l3 _ IH1 _ IH2]; intros F; simpl.
  - reflexivity.
  - destruct (applySpring stiffness damping pos vel F a); simpl; auto.
  - pose proof (applySpring_swap stiffness damping pos vel F a b) as Hs.
    destruct (applySpring stiffness damping pos vel F a) as [Fa|],
             (applySpring stiffness damping pos vel F b) as [Fb|];
      simpl in *;
      first [ reflexivity | rewrite <- Hs; reflexivity
            | rewrite Hs; reflexivity ].
  - now rewrite IH1, IH2.
Qed.

(** C10: over the reals, a call with the springs in another order
    completes or throws alike and leaves the same positions and
    velocities. *)
Theorem C10_spring_order_irrelevant dt pos vel sps sps' stiffness damping
    particleMass (gravity : Vec3.t R) restitution :
  Permutation sps sps' ->
  visible (SimTimeStep dt pos vel sps stiffness damping particleMass
             gravity restitution)
  = visible (SimTimeStep dt pos vel sps' stiffness damping particleMass
               gravity restitution).
Proof.
  intros Hp. apply visible_springLoop. now apply springLoop_perm.
Qed.

(** Two springs on the two-particle scene, in both orders. *)
Lemma C10_witness :
  visible (SimTimeStep 0.1 twoParticles atRest
             [compressedSpring; mkSpring 1%nat 0%nat 0.5] 1 0.25 1
             (v3 0 0 (-1)) 0.5)
  = visible (SimTimeStep 0.1 twoParticles atRest
               [mkSpring 1%nat 0%nat 0.5; compressedSpring] 1 0.25 1
               (v3 0 0 (-1)) 0.5).
Proof.
  apply (C10_spring_order_irrelevant 0.1 twoParticles atRest
           [compressedSpring; mkSpring 1%nat 0%nat 0.5]
           [mkSpring 1%nat 0%nat 0.5; compressedSpring]).
  apply perm_swap.
Defined.

(** *** A spring of length zero *)

Lemma unit_coincident (p : Vec3.t R) :
  Vec3.unit (Vec3.sub p p) = Vec3.zero.
Proof.
  unfold Vec3.unit.
  assert (HL : Vec3.len (Vec3.sub p p) = 0).
  { unfold Vec3.len, Vec3.dot; simpl.
    match goal with |- sqrt ?a = _ => replace a with 0 by ring end.
    apply sqrt_0. }
  rewrite HL. simpl. now rewrite Reqb_true.
Qed.

Lemma springForce_coincident stiffness damping (p vi vj : Vec3.t R) restLen :
  springForce stiffness damping p p vi vj restLen = Vec3.zero.
Proof.
  unfold springForce. cbv zeta. rewrite unit_coincident.
  apply v3_ext; simpl; ring.
Qed.

Lemma applySpring_coincident stiffness damping pos vel
    (F : list (Vec3.t R)) sp p :
  pos !! p0 sp = Some p ->
  pos !! p1 sp = Some p ->
  is_Some (vel !! p0 sp) ->
  is_Some (vel !! p1 sp) ->
  length F = length pos ->
  applySpring stiffness damping pos vel F sp = Some F.
Proof.
  intros E0 E1 [vi Ei] [vj Ej] LF.
  rewrite applySpring_alter.
  2:{ unfold springOk. rewrite LF.
      apply lookup_lt_Some in E0, E1, Ei, Ej. tauto. }
  unfold forceOf. rewrite E0, E1, Ei, Ej. simpl.
  rewrite springForce_coincident. unfold subFrom, addTo.
  rewrite !list_alter_id; [reflexivity|..];
    intros v; apply v3_ext; simpl; lra.
Qed.

(** C6: a spring whose endpoints coincide has unit direction zero and
    force zero; processing it completes and leaves every force
    accumulator as it was, and the call has the outcome it has without
    that spring. *)
Theorem C6_zero_length_spring (dt : R) pos vel sps1 sps2 sp (p : Vec3.t R)
    stiffness damping particleMass gravity restitution :
  pos !! p0 sp = Some p ->
  pos !! p1 sp = Some p ->
  is_Some (vel !! p0 sp) ->
  is_Some (vel !! p1 sp) ->
  Vec3.unit (Vec3.sub p p) = Vec3.zero /\
  (forall vi vj,
     springForce stiffness damping p p vi vj (rest sp) = Vec3.zero) /\
  (forall sps F, length F = length pos ->
     springStep stiffness damping sp (mkSim pos vel sps F)
     = Ret tt (mkSim pos vel sps F)) /\
  visible (SimTimeStep dt pos vel (sps1 ++ sp :: sps2) stiffness damping
             particleMass gravity restitution)
  = visible (SimTimeStep dt pos vel (sps1 ++ sps2) stiffness damping
               particleMass gravity restitution).
Proof.
  intros E0 E1 Hv0 Hv1.
  split; [apply unit_coincident|].
  split; [intros vi vj; apply springForce_coincident|].
  split.
  - intros sps F LF.
    erewrite springStep_Some;
      [reflexivity | simpl; eapply applySpring_coincident; eassumption].
  - apply visible_springLoop. rewrite !springLoop_app.
    destruct (springLoop stiffness damping pos vel sps1 _) as [F1|] eqn:EF1;
      simpl; [|reflexivity].
    rewrite (applySpring_coincident _ _ _ _ F1 sp p E0 E1 Hv0 Hv1);
      [reflexivity|].
    rewrite (springLoop_length _ _ _ _ _ _ _ EF1).
    unfold gravityForces. apply length_replicate.
Qed.

(** Two particles at one place: the call with the spring between them and
    the call without it. *)
Lemma C6_witness :
  visible (SimTimeStep 0.1 stacked atRest [mkSpring 0%nat 1%nat 1] 1 0.25 1
             (v3 0 0 (-1)) 0.5)
  = visible (SimTimeStep 0.1 stacked atRest [] 1 0.25 1 (v3 0 0 (-1)) 0.5).
Proof.
  apply (C6_zero_length_spring 0.1 stacked atRest [] []
           (mkSpring 0%nat 1%nat 1) (v3 0 0 0.5) 1 0.25 1 (v3 0 0 (-1)) 0.5);
    try reflexivity; eexists; reflexivity.
Defined.

(** *** Momentum *)

Lemma vsum_addTo f i (F : list (Vec3.t R)) :
  (i < length F)%nat -> vsum (addTo f i F) = Vec3.add (vsum F) f.
Proof.
  revert i. induction F as [|v F IH]; intros i Hi; simpl in Hi; [lia|].
  destruct i as [|i]; simpl.
  - apply v3_ext; simpl; lra.
  - rewrite IH by lia. apply v3_ext; simpl; lra.
Qed.

Lemma vsum_subFrom f i (F : list (Vec3.t R)) :
  (i < length F)%nat -> vsum (subFrom f i F) = Vec3.sub (vsum F) f.
Proof.
  revert i. induction F as [|v F IH]; intros i Hi; simpl in Hi; [lia|].
  destruct i as [|i]; simpl.
  - apply v3_ext; simpl; lra.
  - rewrite IH by lia. apply v3_ext; simpl; lra.
Qed.

Lemma applySpring_vsum stiffness damping pos vel (F F' : list (Vec3.t R)) sp :
  applySpring stiffness damping pos vel F sp = Some F' ->
  vsum F' = vsum F.
Proof.
  intros E.
  assert (Hok : springOk pos vel F sp)
    by (apply (applySpring_is_Some stiffness damping); eauto).
  rewrite applySpring_alter in E by assumption. injection E as <-.
  destruct Hok as (_ & _ & _ & _ & H0 & H1).
  rewrite vsum_subFrom by (unfold addTo; now rewrite length_alter).
  rewrite vsum_addTo by assumption.
  apply v3_ext; simpl; lra.
Qed.

Lemma springLoop_vsum stiffness damping pos vel sps (F F' : list (Vec3.t R)) :
  springLoop stiffness damping pos vel sps F = Some F' ->
  vsum F' = vsum F.
Proof.
  revert F. induction sps as [|sp sps IH]; intros F E; simpl in E.
  - now injection E as <-.
  - destruct (applySpring _ _ _ _ F sp) as [F1|] eqn:E1; [|discriminate].
    simpl in E. rewrite (IH _ E). eapply applySpring_vsum; eassumption.
Qed.

Lemma vsum_zip_sub (a b : list (Vec3.t R)) :
  length a = length b ->
  vsum (zip_with Vec3.sub a b) = Vec3.sub (vsum a) (vsum b).
Proof.
  revert b. induction a as [|u a IH]; intros [|w b] L; simpl in *;
    try discriminate.
  - apply v3_ext; simpl; lra.
  - rewrite IH by lia. apply v3_ext; simpl; lra.
Qed.

Lemma vsum_replicate n (v : Vec3.t R) :
  vsum (replicate n v) = Vec3.mul v (INR n).
Proof.
  induction n as [|n IH].
  - apply v3_ext; simpl; lra.
  - change (replicate (S n) v) with (v :: replicate n v).
    change (vsum (v :: replicate n v))
      with (Vec3.add v (vsum (replicate n v))).
    rewrite IH, S_INR. apply v3_ext; simpl; lra.
Qed.

Lemma momentum_integrateVs dt particleMass (F vel : list (Vec3.t R)) :
  length F = length vel ->
  momentum particleMass (integrateVs dt particleMass F vel)
  = Vec3.add (momentum particleMass vel)
      (Vec3.mul (vsum F) (/ particleMass * dt * particleMass)).
Proof.
  revert vel. unfold momentum, integrateVs.
  induction F as [|f F IH]; intros [|v vel] L; simpl in *; try discriminate.
  - apply v3_ext; simpl; lra.
  - rewrite IH by lia. apply v3_ext; simpl; unfold Rdiv; ring.
Qed.

Lemma collideVs_inside restitution (P V : list (Vec3.t R)) :
  Forall inBox P -> collideVs restitution P V = take (length P) V.
Proof.
  unfold collideVs. intros HP. revert V.
  induction HP as [|p P Hp _ IH]; intros [|v V];
    cbn [zip_with take length]; try reflexivity.
  rewrite IH, collideParticle_inside by assumption. reflexivity.
Qed.

Lemma step_momentum dt pos vel sps stiffness damping particleMass
    (gravity : Vec3.t R) restitution :
  length vel = length pos ->
  noContact dt pos vel sps stiffness damping particleMass gravity ->
  exists s',
    SimTimeStep dt pos vel sps stiffness damping particleMass gravity
      restitution = Ret tt s' /\
    Vec3.sub (momentum particleMass (velocities s'))
             (momentum particleMass vel)
    = Vec3.mul (Vec3.mul gravity (INR (length pos) * particleMass)) dt.
Proof.
  intros LV HnC. unfold noContact, afterIntegration in HnC.
  destruct (springLoop stiffness damping pos vel sps
              (gravityForces particleMass gravity (length pos)))
    as [F|] eqn:EF; simpl in HnC; [|contradiction].
  rewrite (SimTimeStep_Ret dt pos vel sps _ _ _ _ restitution F LV EF).
  eexists. split; [reflexivity|]. simpl.
  pose proof (springLoop_length _ _ _ _ _ _ _ EF) as LF.
  unfold gravityForces in LF. rewrite length_replicate in LF.
  rewrite collideVs_inside by assumption.
  rewrite take_ge
    by (unfold integratePs, integrateVs; rewrite !length_zip_with; lia).
  rewrite momentum_integrateVs by lia.
  rewrite (springLoop_vsum _ _ _ _ _ _ _ EF).
  unfold gravityForces. rewrite vsum_replicate.
  destruct (Req_dec particleMass 0) as [->|Hm].
  - rewrite Rinv_0. apply v3_ext; simpl; ring.
  - apply v3_ext; simpl; field; assumption.
Qed.

(** C4: the contributions of one spring to all the force accumulators
    sum to zero; without boundary contact the total momentum changes over
    the step by total mass times gravity times [dt], and with gravity
    zero it does not change. *)
Theorem C4_momentum :
  (forall stiffness damping pos vel (F F' : list (Vec3.t R)) sp,
     applySpring stiffness damping pos vel F sp = Some F' ->
     vsum (zip_with Vec3.sub F' F) = Vec3.zero) /\
  (forall dt pos vel sps stiffness damping particleMass gravity restitution,
     length vel = length pos ->
     noContact dt pos vel sps stiffness damping particleMass gravity ->
     exists s',
       SimTimeStep dt pos vel sps stiffness damping particleMass gravity
         restitution = Ret tt s' /\
       Vec3.sub (momentum particleMass (velocities s'))
                (momentum particleMass vel)
       = Vec3.mul (Vec3.mul gravity (INR (length pos) * particleMass)) dt) /\
  (forall dt pos vel sps stiffness damping particleMass restitution,
     length vel = length pos ->
     noContact dt pos vel sps stiffness damping particleMass Vec3.zero ->
     exists s',
       SimTimeStep dt pos vel sps stiffness damping particleMass Vec3.zero
         restitution = Ret tt s' /\
       momentum particleMass (velocities s') = momentum particleMass vel).
Proof.
  split; [|split].
  - intros stiffness damping pos vel F F' sp E.
    rewrite vsum_zip_sub by (eapply applySpring_length; eassumption).
    rewrite (applySpring_vsum _ _ _ _ _ _ _ E).
    apply v3_ext; simpl; lra.
  - intros. now apply step_momentum.
  - intros dt pos vel sps stiffness damping particleMass restitution LV HnC.
    destruct (step_momentum dt pos vel sps stiffness damping particleMass
                Vec3.zero restitution LV HnC) as (s' & E & HP).
    exists s'. split; [exact E|].
    injection HP as Hx Hy Hz. apply v3_ext; lra.
Qed.

Lemma innerPair_forces :
  springLoop 1 0 innerPair atRest [compressedSpring]
    (gravityForces 1 (v3 0 0 (-1)) (length innerPair))
  = Some [v3 (-1) 0 (-1); v3 1 0 (-1)].
Proof.
  assert (HL : Vec3.len (Vec3.sub (v3 0.5 0 0) (v3 (-0.5) 0 0)) = 1).
  { unfold Vec3.len, Vec3.dot; simpl.
    match goal with |- sqrt ?a = _ => replace a with 1 by lra end.
    apply sqrt_1. }
  simpl. unfold springForce, Vec3.unit. cbv zeta. rewrite HL.
  simpl. rewrite Reqb_false by lra.
  apply f_equal. vlist; lra.
Qed.

(** The inner pair under gravity: the momentum changes by
    [2 * 1 * gravity * dt]. *)
Lemma C4_witness :
  exists s',
    SimTimeStep 0.1 innerPair atRest [compressedSpring] 1 0 1 (v3 0 0 (-1))
      0.5 = Ret tt s' /\
    Vec3.sub (momentum 1 (velocities s')) (momentum 1 atRest)
    = Vec3.mul (Vec3.mul (v3 0 0 (-1)) (INR (length innerPair) * 1)) 0.1.
Proof.
  apply (proj1 (proj2 C4_momentum) 0.1 innerPair atRest [compressedSpring]
           1 0 1 (v3 0 0 (-1)) 0.5); [reflexivity|].
  unfold noContact, afterIntegration. rewrite innerPair_forces. simpl.
  repeat constructor; simpl; lra.
Defined.
End Reals.

(** ** The scenes in binary64 *)

(** The free particle: [velocity.z] and [position.z] are the doubles
    nearest to [-0.1] and [0.49]. *)
Example freeFall_binary64 : Binary64.freeFall = Binary64.freeFallResult.
Proof. vm_compute. reflexivity. Qed.

Example wallBounce_binary64 : Binary64.wallBounce = Binary64.wallBounceResult.
Proof. vm_compute. reflexivity. Qed.

(** With [dt = 0.01] particle [p1], which starts on the wall, is reflected:
    both x-velocities are negative. *)
Example pushedApart_binary64 :
  Binary64.pushedApart Binary64.smallStep = Binary64.pushedApartResult.
Proof. vm_compute. reflexivity. Qed.

(** With [dt = 1e-9] the sum [1 + dt * dt] rounds to [1]; no collision is
    seen and [p1] keeps its positive x-velocity.  This is an effect of
    rounding, which the real-number reading does not have. *)
Example pushedApart_tiny_binary64 :
  Binary64.pushedApart Binary64.tinyStep = Binary64.pushedApartTinyResult.
Proof. vm_compute. reflexivity. Qed.

Example stacked_binary64 :
  Binary64.stackedRun [Binary64.stackedSpring] = Binary64.stackedRun [].
Proof. vm_compute. reflexivity. Qed.

Example unvalidated_binary64 : Binary64.unvalidated = true.
Proof. vm_compute. reflexivity. Qed.

Example danglingSpring_binary64 :
  Binary64.danglingSpring = Binary64.danglingSpringResult.
Proof. vm_compute. reflexivity. Qed.

(** * Further properties of the code *)

(** ** More on [SimTimeStep] over the reals *)

Section MoreReals.
Local Open Scope R_scope.

(** *** Spring forces *)

Lemma len_sub_swap (a b : Vec3.t R) :
  Vec3.len (Vec3.sub a b) = Vec3.len (Vec3.sub b a).
Proof. unfold Vec3.len, Vec3.dot; simpl. f_equal. ring. Qed.

Lemma unit_sub_swap (a b : Vec3.t R) :
  Vec3.unit (Vec3.sub a b) = Vec3.mul (Vec3.unit (Vec3.sub b a)) (-1).
Proof.
  unfold Vec3.unit. rewrite (len_sub_swap a b).
  destruct (neqb (Vec3.len (Vec3.sub b a)) nzero).
  - apply v3_ext; simpl; ring.
  - apply v3_ext; simpl; unfold Rdiv; ring.
Qed.

Lemma springForce_swap stiffness damping (pi pj vi vj : Vec3.t R) restLen :
  springForce stiffness damping pj pi vj vi restLen
  = Vec3.mul (springForce stiffness damping pi pj vi vj restLen) (-1).
Proof.
  unfold springForce. cbv zeta.
  rewrite (unit_sub_swap pi pj), (len_sub_swap pi pj).
  apply v3_ext; simpl; ring.
Qed.

Lemma forceOf_flip stiffness damping pos vel (sp : Spring R) :
  forceOf stiffness damping pos vel (flipSpring sp)
  = Vec3.mul (forceOf stiffness damping pos vel sp) (-1).
Proof.
  unfold forceOf, flipSpring. simpl.
  destruct (pos !! p1 sp) as [pj|], (pos !! p0 sp) as [pi|]; simpl;
    try (apply v3_ext; simpl; ring).
  destruct (vel !! p1 sp) as [vj|], (vel !! p0 sp) as [vi|]; simpl;
    try (apply v3_ext; simpl; ring).
  apply springForce_swap.
Qed.

Lemma applySpring_flip stiffness damping pos vel (F : list (Vec3.t R)) sp :
  applySpring stiffness damping pos vel F (flipSpring sp)
  = applySpring stiffness damping pos vel F sp.
Proof.
  destruct (applySpring stiffness damping pos vel F sp) as [F1|] eqn:E.
  - assert (Hok : springOk pos vel F sp)
      by (apply (applySpring_is_Some stiffness damping); eauto).
    rewrite applySpring_alter in E by assumption. injection E as <-.
    rewrite applySpring_alter.
    2:{ unfold springOk, flipSpring in *. simpl. tauto. }
    cbv zeta. rewrite forceOf_flip. f_equal. simpl.
    apply list_eq. intros n. unfold subFrom, addTo.
    rewrite !lookup_alter_fmap.
    destruct (F !! n) as [v|]; simpl; [|reflexivity].
    f_equal. repeat case_decide; apply v3_ext; simpl; lra.
  - destruct (applySpring stiffness damping pos vel F (flipSpring sp))
      as [F2|] eqn:E2; [|reflexivity].
    assert (Hok : springOk pos vel F (flipSpring sp))
      by (apply (applySpring_is_Some stiffness damping); eauto).
    assert (Hok' : springOk pos vel F sp)
      by (unfold springOk, flipSpring in *; simpl in *; tauto).
    apply (applySpring_is_Some stiffness damping) in Hok' as [F3 E3].
    congruence.
Qed.

(** X10: exchanging the endpoints [p0] and [p1] of a spring changes
    nothing a caller can see of the step. *)
Theorem spring_direction_irrelevant (dt : R) pos vel sps1 sps2 sp
    stiffness damping particleMass gravity restitution :
  visible (SimTimeStep dt pos vel (sps1 ++ flipSpring sp :: sps2) stiffness
             damping particleMass gravity restitution)
  = visible (SimTimeStep dt pos vel (sps1 ++ sp :: sps2) stiffness damping
               particleMass gravity restitution).
Proof.
  apply visible_springLoop. rewrite !springLoop_app.
  destruct (springLoop stiffness damping pos vel sps1 _) as [F1|];
    simpl; [|reflexivity].
  now rewrite applySpring_flip.
Qed.

(** X11: the force of a spring depends on relative positions and
    relative velocities only: moving both endpoints by one vector and
    adding one vector to both velocities leaves it unchanged. *)
Theorem springForce_galilean stiffness damping (pi pj vi vj a b : Vec3.t R)
    restLen :
  springForce stiffness damping (Vec3.add pi a) (Vec3.add pj a)
    (Vec3.add vi b) (Vec3.add vj b) restLen
  = springForce stiffness damping pi pj vi vj restLen.
Proof.
  unfold springForce. cbv zeta.
  replace (Vec3.sub (Vec3.add pj a) (Vec3.add pi a)) with (Vec3.sub pj pi)
    by (apply v3_ext; simpl; ring).
  replace (Vec3.sub (Vec3.add vj b) (Vec3.add vi b)) with (Vec3.sub vj vi)
    by (apply v3_ext; simpl; ring).
  reflexivity.
Qed.

Lemma dot_self_nonneg (d : Vec3.t R) : 0 <= Vec3.dot d d.
Proof. unfold Vec3.dot; simpl. nra. Qed.

Lemma len_sqr (d : Vec3.t R) : Vec3.len d * Vec3.len d = Vec3.dot d d.
Proof. unfold Vec3.len. simpl. apply sqrt_sqrt, dot_self_nonneg. Qed.

Lemma dot_unit (d : Vec3.t R) : Vec3.dot (Vec3.unit d) d = Vec3.len d.
Proof.
  pose proof (len_sqr d) as HL. unfold Vec3.unit. cbv zeta.
  set (L := Vec3.len d) in *. clearbody L.
  change (neqb L nzero) with (Reqb L 0).
  destruct (Req_dec L 0) as [E0|Hne].
  - rewrite Reqb_true by assumption. unfold Vec3.dot; simpl. lra.
  - rewrite Reqb_false by assumption.
    unfold Vec3.dot in *; simpl in *.
    apply (Rmult_eq_reg_r L); [|assumption].
    rewrite HL. field. assumption.
Qed.

(** X16: without damping, the force [f] of a spring is along the line
    from [p0] to [p1]: its product with [pj - pi] is
    [stiffness * (L - rest) * L], positive for a stretched spring and
    negative for a compressed one. *)
Theorem hooke_force_along_spring stiffness (pi pj vi vj : Vec3.t R) restLen :
  let d := Vec3.sub pj pi in
  let L := Vec3.len d in
  let f := springForce stiffness 0 pi pj vi vj restLen in
  Vec3.dot f d = stiffness * (L - restLen) * L /\
  (0 < stiffness -> 0 <= restLen < L -> 0 < Vec3.dot f d) /\
  (0 < stiffness -> 0 < L < restLen -> Vec3.dot f d < 0).
Proof.
  intros d L f.
  assert (E : Vec3.dot f d = stiffness * (L - restLen) * L).
  { subst f. unfold springForce. cbv zeta. fold d. fold L.
    pose proof (dot_unit d) as HU. fold L in HU.
    set (u := Vec3.unit d) in *. clearbody u L d.
    unfold Vec3.dot in *; simpl in *.
    transitivity ((Vec3.x u * Vec3.x d + Vec3.y u * Vec3.y d
                   + Vec3.z u * Vec3.z d) * (stiffness * (L - restLen)));
      [ring | rewrite HU; ring]. }
  split; [exact E|]. rewrite E. split; intros Hk HL.
  - apply Rmult_lt_0_compat; [apply Rmult_lt_0_compat|]; lra.
  - assert (0 < stiffness * (restLen - L) * L)
      by (apply Rmult_lt_0_compat; [apply Rmult_lt_0_compat|]; lra).
    nra.
Qed.

(** X19: with a damping coefficient that is not negative, the damping
    forces on the two endpoints of a spring together do no positive
    work. *)
Theorem damping_dissipates damping (pi pj vi vj : Vec3.t R) restLen :
  0 <= damping ->
  let f := springForce 0 damping pi pj vi vj restLen in
  Vec3.dot f vi + Vec3.dot (Vec3.mul f (-1)) vj <= 0.
Proof.
  intros Hc f. subst f. unfold springForce. cbv zeta.
  set (u := Vec3.unit (Vec3.sub pj pi)). clearbody u.
  unfold Vec3.dot; simpl.
  set (q := (Vec3.x vj - Vec3.x vi) * Vec3.x u
            + (Vec3.y vj - Vec3.y vi) * Vec3.y u
            + (Vec3.z vj - Vec3.z vi) * Vec3.z u).
  replace (_ + _) with (- (damping * (q * q))) by (unfold q; ring).
  pose proof (Rle_0_sqr q) as Hq. unfold Rsqr in Hq. nra.
Qed.

(** *** Steps that move nothing *)

Lemma inc_zero (v a : Vec3.t R) : a = Vec3.zero -> Vec3.inc v a = v.
Proof. intros ->. apply v3_ext; simpl; ring. Qed.

Lemma integrateVs_id dt particleMass (F vel : list (Vec3.t R)) :
  length F = length vel ->
  Forall (fun Fi => Vec3.mul (Vec3.div Fi particleMass) dt = Vec3.zero) F ->
  integrateVs dt particleMass F vel = vel.
Proof.
  unfold integrateVs. intros L HF. revert vel L.
  induction HF as [|Fi F HFi _ IH]; intros [|v vel] L; simpl in *;
    try discriminate; [reflexivity|].
  rewrite IH by lia. unfold integrateV. now rewrite inc_zero.
Qed.

Lemma integratePs_id dt (vel pos : list (Vec3.t R)) :
  length vel = length pos ->
  Forall (fun v => Vec3.mul v dt = Vec3.zero) vel ->
  integratePs dt vel pos = pos.
Proof.
  unfold integratePs. intros L HV. revert pos L.
  induction HV as [|v vel Hv _ IH]; intros [|p pos] L; simpl in *;
    try discriminate; [reflexivity|].
  rewrite IH by lia. unfold integrateP. now rewrite inc_zero.
Qed.

Lemma collidePs_inside restitution (P V : list (Vec3.t R)) :
  Forall inBox P -> collidePs restitution P V = take (length V) P.
Proof.
  unfold collidePs. intros HP. revert V.
  induction HP as [|p P Hp _ IH]; intros [|v V];
    cbn [zip_with take length]; try reflexivity.
  rewrite IH, collideParticle_inside by assumption. reflexivity.
Qed.

Lemma step_still dt pos vel sps stiffness damping particleMass
    (gravity : Vec3.t R) restitution F :
  length vel = length pos ->
  springLoop stiffness damping pos vel sps
    (gravityForces particleMass gravity (length pos)) = Some F ->
  Forall (fun Fi => Vec3.mul (Vec3.div Fi particleMass) dt = Vec3.zero) F ->
  Forall (fun v => Vec3.mul v dt = Vec3.zero) vel ->
  Forall inBox pos ->
  SimTimeStep dt pos vel sps stiffness damping particleMass gravity restitution
  = Ret tt (mkSim pos vel sps F).
Proof.
  intros LV EF HF HV HP.
  rewrite (SimTimeStep_Ret dt pos vel sps _ _ _ _ restitution F LV EF).
  pose proof (springLoop_length _ _ _ _ _ _ _ EF) as LF.
  unfold gravityForces in LF. rewrite length_replicate in LF.
  rewrite integrateVs_id by (assumption || lia).
  rewrite integratePs_id by assumption.
  rewrite collidePs_inside, collideVs_inside by assumption.
  rewrite !take_ge by lia. reflexivity.
Qed.

Lemma applySpring_zero_force stiffness damping pos vel
    (F : list (Vec3.t R)) sp :
  springOk pos vel F sp ->
  forceOf stiffness damping pos vel sp = Vec3.zero ->
  applySpring stiffness damping pos vel F sp = Some F.
Proof.
  intros Hok E0. rewrite applySpring_alter by assumption.
  cbv zeta. rewrite E0. unfold subFrom, addTo.
  rewrite !list_alter_id; [reflexivity|..];
    intros v; apply v3_ext; simpl; lra.
Qed.

Lemma springLoop_zero_force stiffness damping pos vel sps
    (F : list (Vec3.t R)) :
  Forall (fun sp => springOk pos vel F sp /\
                    forceOf stiffness damping pos vel sp = Vec3.zero) sps ->
  springLoop stiffness damping pos vel sps F = Some F.
Proof.
  induction 1 as [|sp sps [Hok E0] _ IH]; simpl; [reflexivity|].
  now rewrite applySpring_zero_force.
Qed.

(** X12: over the reals, particles of a mass other than zero at rest
    inside the cube, joined by springs at their rest lengths, with no
    gravity: the step completes and changes neither positions nor
    velocities. *)
Theorem rest_configuration_is_fixed dt pos vel sps stiffness damping
    particleMass restitution :
  particleMass <> 0 ->
  length vel = length pos ->
  Forall inBox pos ->
  Forall (fun v => v = Vec3.zero) vel ->
  Forall (atRestLength pos) sps ->
  exists s',
    SimTimeStep dt pos vel sps stiffness damping particleMass Vec3.zero
      restitution = Ret tt s' /\
    positions s' = pos /\ velocities s' = vel.
Proof.
  intros Hm LV HP HV Hsps.
  set (F0 := gravityForces particleMass Vec3.zero (length pos)).
  assert (EF : springLoop stiffness damping pos vel sps F0 = Some F0).
  { apply springLoop_zero_force.
    eapply Forall_impl; [exact Hsps|]. intros sp (pi & pj & Ei & Ej & EL).
    pose proof (lookup_lt_Some _ _ _ Ei) as Li.
    pose proof (lookup_lt_Some _ _ _ Ej) as Lj.
    split.
    - unfold springOk, F0, gravityForces. rewrite length_replicate, LV. tauto.
    - unfold forceOf. rewrite Ei, Ej. simpl.
      destruct (lookup_lt_is_Some_2 vel (p1 sp)) as [vj Evj]; [lia|].
      destruct (lookup_lt_is_Some_2 vel (p0 sp)) as [vi Evi]; [lia|].
      rewrite Evi, Evj. simpl.
      rewrite Forall_lookup in HV.
      rewrite (HV _ _ Evi), (HV _ _ Evj).
      unfold springForce. cbv zeta. rewrite EL.
      apply v3_ext; simpl; ring. }
  eexists. split.
  - apply (step_still dt pos vel sps _ _ _ _ restitution F0 LV EF);
      [| |assumption].
    + unfold F0, gravityForces. apply Forall_replicate.
      apply v3_ext; simpl; unfold Rdiv; ring.
    + eapply Forall_impl; [exact HV|]. intros v ->.
      apply v3_ext; simpl; ring.
  - simpl. auto.
Qed.

(** X14: over the reals, with [dt = 0], a mass other than zero,
    positions inside the cube and springs between existing particles, the
    step completes and changes neither positions nor velocities. *)
Theorem zero_time_step_moves_nothing pos vel sps stiffness damping
    particleMass (gravity : Vec3.t R) restitution :
  particleMass <> 0 ->
  length vel = length pos ->
  Forall inBox pos ->
  Forall (fun sp => (p0 sp < length pos)%nat /\ (p1 sp < length pos)%nat) sps ->
  exists s',
    SimTimeStep 0 pos vel sps stiffness damping particleMass gravity
      restitution = Ret tt s' /\
    positions s' = pos /\ velocities s' = vel.
Proof.
  intros Hm LV HP Hsps.
  destruct (proj2 (springLoop_is_Some stiffness damping pos vel sps
              (gravityForces particleMass gravity (length pos))))
    as [F EF].
  { eapply Forall_impl; [exact Hsps|]. intros sp [H0 H1].
    unfold springOk, gravityForces. rewrite length_replicate, LV. tauto. }
  eexists. split.
  - apply (step_still 0 pos vel sps _ _ _ _ restitution F LV EF);
      [| |assumption].
    + apply Forall_forall. intros Fi _. apply v3_ext; simpl; ring.
    + apply Forall_forall. intros v _. apply v3_ext; simpl; ring.
  - simpl. auto.
Qed.

(** X13: when the integrated positions stay inside the cube, the whole
    step is the semi-implicit Euler update of every particle with the force
    loops 1 and 2 accumulate: the collision loop changes nothing. *)
Theorem no_contact_is_symplectic_euler dt pos vel sps stiffness damping
    particleMass gravity restitution :
  length vel = length pos ->
  noContact dt pos vel sps stiffness damping particleMass gravity ->
  exists F s',
    springLoop stiffness damping pos vel sps
      (gravityForces particleMass gravity (length pos)) = Some F /\
    SimTimeStep dt pos vel sps stiffness damping particleMass gravity
      restitution = Ret tt s' /\
    forall i Fi v p,
      F !! i = Some Fi -> vel !! i = Some v -> pos !! i = Some p ->
      let v' := Vec3.inc v (Vec3.mul (Vec3.div Fi particleMass) dt) in
      velocities s' !! i = Some v' /\
      positions s' !! i = Some (Vec3.inc p (Vec3.mul v' dt)).
Proof.
  intros LV HnC. unfold noContact, afterIntegration in HnC.
  destruct (springLoop stiffness damping pos vel sps
              (gravityForces particleMass gravity (length pos)))
    as [F|] eqn:EF; simpl in HnC; [|contradiction].
  exists F. eexists. split; [reflexivity|].
  split; [apply (SimTimeStep_Ret dt pos vel sps _ _ _ _ restitution F LV EF)|].
  pose proof (springLoop_length _ _ _ _ _ _ _ EF) as LF.
  unfold gravityForces in LF. rewrite length_replicate in LF.
  intros i Fi v p EFi Ev Ep v'. simpl.
  rewrite collidePs_inside, collideVs_inside by assumption.
  rewrite !take_ge
    by (unfold integratePs, integrateVs; rewrite !length_zip_with; lia).
  assert (EV : integrateVs dt particleMass F vel !! i = Some v').
  { unfold integrateVs. rewrite lookup_zip_with, EFi. simpl. now rewrite Ev. }
  split; [exact EV|].
  unfold integratePs. rewrite lookup_zip_with.
  fold (integrateVs dt particleMass F vel). rewrite EV. simpl. now rewrite Ep.
Qed.

(** *** Bounces *)

Lemma collide1_speed e p v :
  0 <= e <= 1 -> Rabs (collide1 e (p, v)).2 <= Rabs v.
Proof.
  intros He.
  destruct (Rlt_dec p (-1)) as [Hlo|Hlo].
  - rewrite collide1_below by assumption. simpl.
    unfold Rltb. destruct (Rlt_dec v 0); [|lra].
    rewrite Rabs_mult, Rabs_Ropp, (Rabs_pos_eq e) by lra.
    pose proof (Rabs_pos v). nra.
  - destruct (Rlt_dec 1 p) as [Hhi|Hhi].
    + rewrite collide1_above by assumption. simpl.
      unfold Rltb. destruct (Rlt_dec 0 v); [|lra].
      rewrite Rabs_mult, Rabs_Ropp, (Rabs_pos_eq e) by lra.
      pose proof (Rabs_pos v). nra.
    + rewrite collide1_inside by lra. simpl. lra.
Qed.

(** X15: with a restitution between 0 and 1, the collision handling of
    one particle puts it inside the cube and makes no component of its
    velocity larger in absolute value. *)
Theorem collision_never_speeds_up restitution i (s : Sim R) p v :
  0 <= restitution <= 1 ->
  positions s !! i = Some p ->
  velocities s !! i = Some v ->
  exists s' p' v',
    collideStep restitution i s = Ret tt s' /\
    positions s' !! i = Some p' /\
    velocities s' !! i = Some v' /\
    inBox p' /\
    forall d, Rabs (Vec3.get d v') <= Rabs (Vec3.get d v).
Proof.
  intros He Ep Ev.
  pose proof (lookup_lt_Some _ _ _ Ep) as Lp.
  pose proof (lookup_lt_Some _ _ _ Ev) as Lv.
  exists (setParticle i (collideParticle restitution (p, v)).1
                        (collideParticle restitution (p, v)).2 s),
         (collideParticle restitution (p, v)).1,
         (collideParticle restitution (p, v)).2.
  split; [now apply collideStep_spec|].
  split; [now apply list_lookup_insert_eq|].
  split; [now apply list_lookup_insert_eq|].
  split; [apply collideParticle_inBox|].
  rewrite collideParticle_components. simpl.
  intros []; simpl; now apply collide1_speed.
Qed.
End MoreReals.

Section ShortVelocities.
Context {A : Type} `{Number A}.

Lemma forEach_app {T} (l1 l2 : list T) (body : T -> M A unit) s :
  forEach (l1 ++ l2) body s = (forEach l1 body;; forEach l2 body) s.
Proof.
  revert s. induction l1 as [|a l1 IH]; intros s; simpl; [reflexivity|].
  unfold mbind, M_bind, bind. destruct (body a s) as [[] s'|s']; [|reflexivity].
  apply IH.
Qed.

Lemma integrateStep_no_velocity (dt particleMass : A) i (s : Sim A) :
  velocities s !! i = None ->
  integrateStep dt particleMass i s = Throw s.
Proof.
  intros Ev. unfold integrateStep. rewrite gets_bind.
  destruct (forces s !! i) as [F|]; [|reflexivity].
  rewrite deref_Some_bind. apply bind_Throw.
  unfold updVelocity. now rewrite gets_bind, Ev.
Qed.

(** X17: with fewer velocities than positions (and springs that pass
    loop 2), the step throws in loop 3 at the first particle without a
    velocity; the particles before it have been integrated, and the
    collision loop has not run. *)
Theorem velocities_shorter_than_positions (dt : A) pos vel sps stiffness
    damping particleMass (gravity : Vec3.t A) restitution F :
  (length vel < length pos)%nat ->
  springLoop stiffness damping pos vel sps
    (gravityForces particleMass gravity (length pos)) = Some F ->
  let V1 := integrateVs dt particleMass F vel in
  SimTimeStep dt pos vel sps stiffness damping particleMass gravity restitution
  = Throw (mkSim (integratePs dt V1 pos ++ drop (length vel) pos) V1 sps F).
Proof.
  intros LV EF V1.
  pose proof (springLoop_length _ _ _ _ _ _ _ EF) as LF.
  unfold gravityForces in LF. rewrite length_replicate in LF.
  rewrite SimTimeStep_unfold.
  erewrite bind_Ret by (apply forEach_springs_Some; simpl; exact EF).
  unfold withForces; simpl. unfold integrateAndCollide.
  apply bind_Throw.
  set (k := length vel) in *.
  set (s2 := mkSim pos vel sps F).
  set (P1 := integratePs dt V1 pos ++ drop k pos).
  assert (LV1 : length V1 = k).
  { unfold V1, integrateVs. rewrite length_zip_with. lia. }
  assert (LP1a : length (integratePs dt V1 pos) = k).
  { unfold integratePs. rewrite length_zip_with. lia. }
  assert (LP1 : length P1 = length pos).
  { unfold P1. rewrite length_app, length_drop. lia. }
  replace (length pos) with (k + (length pos - k))%nat at 1 by lia.
  rewrite seq_app, forEach_app.
  rewrite <- (mid_0 P1 V1 s2).
  erewrite bind_Ret.
  2:{ apply (forEach_seq_mid (integrateStep dt particleMass) P1 V1 s2 k 0);
        simpl; try lia.
      intros j p v Hj Ep Ev.
      unfold P1 in Ep. rewrite lookup_app_l in Ep by lia.
      unfold integratePs in Ep.
      apply lookup_zip_with_Some in Ep as (v' & p0 & -> & Ev' & Ep0).
      assert (v' = v) as -> by congruence.
      unfold V1, integrateVs in Ev.
      apply lookup_zip_with_Some in Ev as (Fj & v0 & -> & EFj & Ev0).
      apply integrateStep_spec; simpl;
        [assumption | rewrite splice_lookup by lia; assumption
        | rewrite splice_lookup by lia; assumption]. }
  simpl.
  assert (Emid : mid k P1 V1 s2 = mkSim P1 V1 sps F).
  { unfold mid, splice, s2. simpl. f_equal.
    - unfold P1. now rewrite take_app_length' by lia.
    - rewrite take_ge by lia. rewrite drop_ge by lia. apply app_nil_r. }
  rewrite Emid.
  destruct (length pos - k)%nat as [|n] eqn:En; [lia|]. simpl.
  apply bind_Throw, integrateStep_no_velocity. simpl.
  apply lookup_ge_None_2. lia.
Qed.
End ShortVelocities.

(** ** [GetTransform] and [ApplyTransform] of project2.js *)

Section Transform2DAny.
Context {A : Type} `{Number A} `{NotANumber A}.
Local Open Scope num_scope.

Lemma ApplyTransform_entries (trans1 trans2 : list A) :
  ApplyTransform trans1 trans2 =
    [ productEntry trans1 trans2 0 0; productEntry trans1 trans2 1 0;
      productEntry trans1 trans2 2 0;
      productEntry trans1 trans2 0 1; productEntry trans1 trans2 1 1;
      productEntry trans1 trans2 2 1;
      productEntry trans1 trans2 0 2; productEntry trans1 trans2 1 2;
      productEntry trans1 trans2 2 2 ].
Proof. vm_compute. reflexivity. Qed.

Lemma ApplyTransform_lookup (trans1 trans2 : list A) row col :
  (row < 3)%nat -> (col < 3)%nat ->
  ApplyTransform trans1 trans2 !! (col * 3 + row)%nat
  = Some (productEntry trans1 trans2 row col).
Proof.
  intros Hr Hc. rewrite ApplyTransform_entries.
  destruct row as [|[|[|?]]]; [| | |lia];
    destruct col as [|[|[|?]]]; try lia; reflexivity.
Qed.
End Transform2DAny.

Section Transform2DReals.
Context `{NotANumber R}.
Local Open Scope R_scope.

Ltac list9 l :=
  destruct l as [|? l]; [discriminate|];
  destruct l as [|? l]; [discriminate|];
  destruct l as [|? l]; [discriminate|];
  destruct l as [|? l]; [discriminate|];
  destruct l as [|? l]; [discriminate|];
  destruct l as [|? l]; [discriminate|];
  destruct l as [|? l]; [discriminate|];
  destruct l as [|? l]; [discriminate|];
  destruct l as [|? l]; [discriminate|];
  destruct l; [|discriminate].

Ltac entries :=
  rewrite ?ApplyTransform_entries; unfold productEntry, readNum; simpl;
  repeat (apply (f_equal2 cons); [|]); try reflexivity.

Lemma angle_0 : 0 * PI / 180 = 0.
Proof. unfold Rdiv. ring. Qed.

Lemma angle_neg r : - r * PI / 180 = - (r * PI / 180).
Proof. unfold Rdiv. ring. Qed.

Lemma angle_plus a b : (a + b) * PI / 180 = a * PI / 180 + b * PI / 180.
Proof. unfold Rdiv. ring. Qed.

Lemma angle_turn r : (r + 360) * PI / 180 = r * PI / 180 + 2 * PI.
Proof. field. Qed.

(** X1: [ApplyTransform(trans1, trans2)] applied to a point is [trans2]
    applied to what [trans1] makes of the point: the returned
    transformation applies [trans1] first and [trans2] second. *)
Theorem ApplyTransform_applies_trans1_then_trans2 (trans1 trans2 : list R) p :
  length trans1 = 9%nat ->
  length trans2 = 9%nat ->
  transformPoint (ApplyTransform trans1 trans2) p
  = transformPoint trans2 (transformPoint trans1 p).
Proof.
  intros L1 L2. list9 trans1. list9 trans2. clear L1 L2.
  destruct p as [[x y] w].
  rewrite ApplyTransform_entries.
  unfold transformPoint, productEntry, readNum. simpl.
  repeat apply (f_equal2 pair); ring.
Qed.

(** X2: [GetTransform(0, 0, 0, 1)] is the identity matrix, and composing
    a 9-entry matrix with it on either side of [ApplyTransform] gives
    the matrix back. *)
Theorem GetTransform_identity (trans : list R) :
  length trans = 9%nat ->
  GetTransform 0 0 0 1 = identity3 /\
  ApplyTransform trans (GetTransform 0 0 0 1) = trans /\
  ApplyTransform (GetTransform 0 0 0 1) trans = trans.
Proof.
  intros L.
  assert (E : GetTransform 0 0 0 1 = identity3).
  { unfold GetTransform, identity3. rewrite angle_0, cos_0, sin_0.
    repeat (apply (f_equal2 cons); [|]); try reflexivity; ring. }
  split; [exact E|]. rewrite E. unfold identity3.
  list9 trans. clear L. split; entries; ring.
Qed.

(** X3: [ApplyTransform] is associative on 9-entry matrices over the
    reals. *)
Theorem ApplyTransform_assoc (t1 t2 t3 : list R) :
  length t1 = 9%nat -> length t2 = 9%nat -> length t3 = 9%nat ->
  ApplyTransform (ApplyTransform t1 t2) t3
  = ApplyTransform t1 (ApplyTransform t2 t3).
Proof.
  intros L1 L2 L3. list9 t1. list9 t2. list9 t3. clear L1 L2 L3.
  entries; ring.
Qed.

(** X4: the matrix of [GetTransform] is the composition, by
    [ApplyTransform], of the scaling, then the rotation, then the
    translation. *)
Theorem GetTransform_scale_rotate_translate positionX positionY rotation scale :
  GetTransform positionX positionY rotation scale
  = ApplyTransform
      (ApplyTransform (GetTransform 0 0 0 scale) (GetTransform 0 0 rotation 1))
      (GetTransform positionX positionY 0 1).
Proof.
  unfold GetTransform. rewrite angle_0, cos_0, sin_0.
  entries; ring.
Qed.

(** X5: composing two rotate-and-scale transformations adds the angles
    and multiplies the scales; composing two translations adds the
    offsets. *)
Theorem GetTransform_compose :
  (forall a b s1 s2,
     ApplyTransform (GetTransform 0 0 a s1) (GetTransform 0 0 b s2)
     = GetTransform 0 0 (a + b) (s1 * s2)) /\
  (forall x1 y1 x2 y2,
     ApplyTransform (GetTransform x1 y1 0 1) (GetTransform x2 y2 0 1)
     = GetTransform (x1 + x2) (y1 + y2) 0 1).
Proof.
  split.
  - intros a b s1 s2. unfold GetTransform.
    rewrite angle_plus, cos_plus, sin_plus.
    entries; ring.
  - intros x1 y1 x2 y2. unfold GetTransform. rewrite angle_0, cos_0, sin_0.
    entries; ring.
Qed.

(** X7: the rotation is in degrees.  Adding 360 to it gives the same
    matrix; a rotation of 90 is the quarter turn that takes the x axis to
    the y axis; and for every rotation, the matrix without translation and
    scaling takes the point [(1, 0)] to the point of the unit circle at
    the angle [rotation * PI / 180] radians. *)
Theorem GetTransform_rotation_in_degrees :
  (forall positionX positionY rotation scale,
     GetTransform positionX positionY (rotation + 360) scale
     = GetTransform positionX positionY rotation scale) /\
  GetTransform 0 0 90 1 = [0; 1; 0; -1; 0; 0; 0; 0; 1] /\
  (forall rotation,
     transformPoint (GetTransform 0 0 rotation 1) (1, 0, 1)
     = (cos (rotation * PI / 180), sin (rotation * PI / 180), 1)).
Proof.
  split; [|split].
  - intros positionX positionY rotation scale.
    unfold GetTransform. rewrite angle_turn.
    rewrite cos_plus, sin_plus, cos_2PI, sin_2PI.
    repeat (apply (f_equal2 cons); [|]); try reflexivity; ring.
  - unfold GetTransform.
    replace (90 * PI / 180) with (PI / 2) by field.
    rewrite cos_PI2, sin_PI2.
    repeat (apply (f_equal2 cons); [|]); try reflexivity; ring.
  - intros rotation. unfold GetTransform, transformPoint, readNum. simpl.
    repeat apply (f_equal2 pair); ring.
Qed.

(** X6: for a scale other than zero, undoing the translation, then the
    rotation, then the scaling inverts the matrix of [GetTransform], on
    both sides. *)
Theorem GetTransform_inverse positionX positionY rotation scale :
  scale <> 0 ->
  let m := GetTransform positionX positionY rotation scale in
  let inv :=
    ApplyTransform
      (ApplyTransform (GetTransform (- positionX) (- positionY) 0 1)
                      (GetTransform 0 0 (- rotation) 1))
      (GetTransform 0 0 0 (/ scale)) in
  ApplyTransform m inv = identity3 /\ ApplyTransform inv m = identity3.
Proof.
  intros Hs m inv. subst m inv. unfold GetTransform, identity3.
  rewrite angle_neg, cos_neg, sin_neg, angle_0, cos_0, sin_0.
  pose proof (sin2_cos2 (rotation * PI / 180)) as Hsc. unfold Rsqr in Hsc.
  set (c := cos (rotation * PI / 180)) in *.
  set (s := sin (rotation * PI / 180)) in *.
  assert (Hk : scale * / scale = 1) by (field; assumption).
  set (k := / scale) in *.
  clearbody c s k.
  split; entries; nsatz.
Qed.

(** X9: [ApplyTransform] of two affine matrices (bottom row [0 0 1]) is
    affine. *)
Theorem ApplyTransform_affine (trans1 trans2 : list R) :
  length trans1 = 9%nat -> length trans2 = 9%nat ->
  (trans1 !! 2%nat = Some 0 /\ trans1 !! 5%nat = Some 0 /\ trans1 !! 8%nat = Some 1) ->
  (trans2 !! 2%nat = Some 0 /\ trans2 !! 5%nat = Some 0 /\ trans2 !! 8%nat = Some 1) ->
  let res := ApplyTransform trans1 trans2 in
  res !! 2%nat = Some 0 /\ res !! 5%nat = Some 0 /\ res !! 8%nat = Some 1.
Proof.
  intros L1 L2 A1 A2. list9 trans1. list9 trans2. clear L1 L2.
  simpl in A1, A2.
  destruct A1 as (A12 & A15 & A18), A2 as (A22 & A25 & A28).
  injection A12 as ->. injection A15 as ->. injection A18 as ->.
  injection A22 as ->. injection A25 as ->. injection A28 as ->.
  intros res. subst res. rewrite ApplyTransform_entries.
  unfold productEntry, readNum. simpl.
  repeat split; f_equal; ring.
Qed.
End Transform2DReals.

(** ** Missing numbers in binary64 *)

Section Binary64NaN.
Import PrimFloat FloatOps SpecFloat FloatAxioms.

Lemma Prim2SF_nan : Prim2SF nan = S754_nan.
Proof. vm_compute. reflexivity. Qed.

Lemma mul_nan_l x : PrimFloat.mul nan x = nan.
Proof.
  apply Prim2SF_inj. rewrite mul_spec, Prim2SF_nan. reflexivity.
Qed.

Lemma mul_nan_r x : PrimFloat.mul x nan = nan.
Proof.
  apply Prim2SF_inj. rewrite mul_spec, Prim2SF_nan.
  now destruct (Prim2SF x).
Qed.

Lemma add_nan_l x : PrimFloat.add nan x = nan.
Proof.
  apply Prim2SF_inj. rewrite add_spec, Prim2SF_nan. reflexivity.
Qed.

Lemma add_nan_r x : PrimFloat.add x nan = nan.
Proof.
  apply Prim2SF_inj. rewrite add_spec, Prim2SF_nan.
  now destruct (Prim2SF x).
Qed.

Lemma ltb_nan_l x : PrimFloat.ltb nan x = false.
Proof. rewrite ltb_spec, Prim2SF_nan. reflexivity. Qed.

Lemma ltb_nan_r x : PrimFloat.ltb x nan = false.
Proof. rewrite ltb_spec, Prim2SF_nan. now destruct (Prim2SF x). Qed.

Lemma readNum_missing (a : list float) i :
  (length a <= i)%nat -> readNum a i = nan.
Proof. intros L. unfold readNum. now rewrite lookup_ge_None_2. Qed.

Lemma nmul_nan_l (x : float) : nmul nnan x = nnan.
Proof. apply mul_nan_l. Qed.
Lemma nmul_nan_r (x : float) : nmul x nnan = nnan.
Proof. apply mul_nan_r. Qed.
Lemma nadd_nan_l (x : float) : nadd nnan x = nnan.
Proof. apply add_nan_l. Qed.
Lemma nadd_nan_r (x : float) : nadd x nnan = nnan.
Proof. apply add_nan_r. Qed.

(** X8: in binary64, [ApplyTransform] does not check its arguments: it
    always returns nine numbers, and an entry of the result that reads past
    the end of an argument is NaN. *)
Theorem ApplyTransform_missing_entry (trans1 trans2 : list float) row col k :
  (row < 3)%nat -> (col < 3)%nat -> (k < 3)%nat ->
  (length trans1 <= col * 3 + k)%nat \/ (length trans2 <= k * 3 + row)%nat ->
  length (ApplyTransform trans1 trans2) = 9%nat /\
  ApplyTransform trans1 trans2 !! (col * 3 + row)%nat = Some nan.
Proof.
  intros Hr Hc Hk Hmiss.
  split; [now rewrite ApplyTransform_entries|].
  rewrite (ApplyTransform_lookup trans1 trans2 row col Hr Hc). f_equal.
  assert (Hterm : nmul (readNum trans2 (k * 3 + row))
                       (readNum trans1 (col * 3 + k)) = nnan).
  { destruct Hmiss as [L|L]; rewrite (readNum_missing _ _ L);
      [apply nmul_nan_r | apply nmul_nan_l]. }
  unfold productEntry.
  destruct k as [|[|[|?]]]; [| | |lia];
    rewrite Hterm, ?nadd_nan_r, ?nadd_nan_l; reflexivity.
Qed.
End Binary64NaN.

Section AnyParts.
Context {A : Type} `{Number A}.
Lemma collideParticle_parts e (p v : Vec3.t A) :
  collideParticle e (p, v) =
    (Vec3.mk (collide1 e (Vec3.x p, Vec3.x v)).1
             (collide1 e (Vec3.y p, Vec3.y v)).1
             (collide1 e (Vec3.z p, Vec3.z v)).1,
     Vec3.mk (collide1 e (Vec3.x p, Vec3.x v)).2
             (collide1 e (Vec3.y p, Vec3.y v)).2
             (collide1 e (Vec3.z p, Vec3.z v)).2).
Proof. now destruct p, v. Qed.
End AnyParts.

Section Binary64Step.
Import PrimFloat.

Lemma nltb_nan_l (x : float) : nltb nnan x = false.
Proof. apply ltb_nan_l. Qed.

Lemma nltb_nan_r (x : float) : nltb x nnan = false.
Proof. apply ltb_nan_r. Qed.

Lemma collide1_nan (e v : float) : collide1 e (nnan, v) = (nnan, v).
Proof.
  unfold collide1, clampLow. cbn [fst snd]. rewrite nltb_nan_l.
  unfold clampHigh. cbn [fst snd]. now rewrite nltb_nan_r.
Qed.

Lemma collideParticle_nan (e : float) d (p v : Vec3.t float) :
  Vec3.get d p = nnan ->
  Vec3.get d (collideParticle e (p, v)).1 = nnan.
Proof.
  intros Hn. rewrite collideParticle_parts.
  destruct d; cbn [Vec3.get Vec3.x Vec3.y Vec3.z fst snd] in *;
    rewrite Hn; now rewrite collide1_nan.
Qed.

(** X18: in binary64, a position coordinate that is NaN is still NaN
    after the step: integration keeps it and both collision tests are false
    for it, so it is never clamped into the cube. *)
Theorem nan_position_stays_nan (dt : float) pos vel sps stiffness damping
    particleMass gravity restitution F i p d :
  length vel = length pos ->
  springLoop stiffness damping pos vel sps
    (gravityForces particleMass gravity (length pos)) = Some F ->
  pos !! i = Some p ->
  Vec3.get d p = nan ->
  exists s' p',
    SimTimeStep dt pos vel sps stiffness damping particleMass gravity
      restitution = Ret tt s' /\
    positions s' !! i = Some p' /\
    Vec3.get d p' = nan.
Proof.
  intros LV EF Ep Hn.
  pose proof (springLoop_length _ _ _ _ _ _ _ EF) as LF.
  unfold gravityForces in LF. rewrite length_replicate in LF.
  pose proof (lookup_lt_Some _ _ _ Ep) as Li.
  destruct (lookup_lt_is_Some_2 vel i) as [v Ev]; [lia|].
  destruct (lookup_lt_is_Some_2 F i) as [Fi EFi]; [lia|].
  rewrite (SimTimeStep_Ret dt pos vel sps _ _ _ _ restitution F LV EF).
  set (V1 := integrateVs dt particleMass F vel).
  set (P1 := integratePs dt V1 pos).
  assert (EV1 : V1 !! i = Some (integrateV dt particleMass Fi v)).
  { unfold V1, integrateVs. rewrite lookup_zip_with, EFi. simpl.
    now rewrite Ev. }
  assert (EP1 : P1 !! i
                = Some (integrateP dt (integrateV dt particleMass Fi v) p)).
  { unfold P1, integratePs. rewrite lookup_zip_with, EV1. simpl.
    now rewrite Ep. }
  exists (mkSim (collidePs restitution P1 V1) (collideVs restitution P1 V1)
                sps F),
         (collideParticle restitution
            (integrateP dt (integrateV dt particleMass Fi v) p,
             integrateV dt particleMass Fi v)).1.
  split; [reflexivity|]. split.
  - cbn [positions]. unfold collidePs.
    rewrite lookup_zip_with, EP1. cbn [mbind option_bind].
    rewrite EV1. reflexivity.
  - apply collideParticle_nan.
    unfold integrateP, Vec3.inc.
    destruct d; cbn [Vec3.get Vec3.x Vec3.y Vec3.z] in *;
      rewrite Hn; apply add_nan_l.
Qed.
End Binary64Step.

(** ** [GetModelViewMatrix] and [GetModelViewProjection] *)

Section ModelViewReals.
Context `{NotANumber R}.
Variable MatrixMult : list R -> list R -> list R.
Local Open Scope R_scope.

Lemma columnMajorProduct_entries (a b : list R) :
  columnMajorProduct a b =
    [ productEntry4 a b 0 0; productEntry4 a b 1 0;
      productEntry4 a b 2 0; productEntry4 a b 3 0;
      productEntry4 a b 0 1; productEntry4 a b 1 1;
      productEntry4 a b 2 1; productEntry4 a b 3 1;
      productEntry4 a b 0 2; productEntry4 a b 1 2;
      productEntry4 a b 2 2; productEntry4 a b 3 2;
      productEntry4 a b 0 3; productEntry4 a b 1 3;
      productEntry4 a b 2 3; productEntry4 a b 3 3 ].
Proof. reflexivity. Qed.

Lemma length_columnMajorProduct (a b : list R) :
  length (columnMajorProduct a b) = 16%nat.
Proof. reflexivity. Qed.

Lemma GetModelViewMatrix_product tx ty tz rx ry :
  multiplies MatrixMult ->
  GetModelViewMatrix MatrixMult tx ty tz rx ry
  = [ cos ry; sin rx * sin ry; - (cos rx * sin ry); 0;
      0; cos rx; sin rx; 0;
      sin ry; - (sin rx * cos ry); cos rx * cos ry; 0;
      tx; ty; tz; 1 ].
Proof.
  intros HM. unfold GetModelViewMatrix. cbv zeta.
  match goal with
  | |- context [MatrixMult ?a (MatrixMult ?b ?c)] =>
      rewrite (HM b c) by reflexivity; rewrite (HM a) by reflexivity
  end.
  rewrite !columnMajorProduct_entries. unfold productEntry4, readNum. simpl.
  repeat (apply (f_equal2 cons); [ring|]). reflexivity.
Qed.

Ltac list16 l :=
  do 16 (destruct l as [|? l]; [discriminate|]);
  destruct l; [|discriminate].

(** X25: when [MatrixMult] is the column-major product, the matrix of
    [GetModelViewMatrix] rotates a point about the y axis, then about the
    x axis, then translates it. *)
Theorem GetModelViewMatrix_rotates_then_translates tx ty tz rx ry x y z :
  multiplies MatrixMult ->
  transformPoint4 (GetModelViewMatrix MatrixMult tx ty tz rx ry) (x, y, z, 1)
  = let x1 := cos ry * x + sin ry * z in
    let z1 := - sin ry * x + cos ry * z in
    let y2 := cos rx * y - sin rx * z1 in
    let z2 := sin rx * y + cos rx * z1 in
    (x1 + tx, y2 + ty, z2 + tz, 1).
Proof.
  intros HM. rewrite GetModelViewMatrix_product by assumption.
  unfold transformPoint4, readNum. simpl.
  repeat apply (f_equal2 pair); ring.
Qed.

(** X26: when [MatrixMult] is the column-major product, the matrix of
    [GetModelViewMatrix] keeps the distance of any two points. *)
Theorem GetModelViewMatrix_rigid tx ty tz rx ry px py pz qx qy qz :
  multiplies MatrixMult ->
  let m := GetModelViewMatrix MatrixMult tx ty tz rx ry in
  dist2 (transformPoint4 m (px, py, pz, 1)) (transformPoint4 m (qx, qy, qz, 1))
  = dist2 (px, py, pz, 1) (qx, qy, qz, 1).
Proof.
  intros HM m. subst m. rewrite GetModelViewMatrix_product by assumption.
  unfold transformPoint4, dist2, readNum. simpl.
  pose proof (sin2_cos2 rx) as Ex. pose proof (sin2_cos2 ry) as Ey.
  unfold Rsqr in Ex, Ey.
  set (cx := cos rx) in *. set (sx := sin rx) in *.
  set (cy := cos ry) in *. set (sy := sin ry) in *.
  clearbody cx sx cy sy. nsatz.
Qed.

(** X27: when [MatrixMult] is the column-major product, the matrix of
    [GetModelViewProjection] applies the model-view matrix of
    [GetModelViewMatrix] first and the 16-entry projection matrix last. *)
Theorem GetModelViewProjection_projects_last
    (projectionMatrix : list R) tx ty tz rx ry p :
  multiplies MatrixMult ->
  length projectionMatrix = 16%nat ->
  transformPoint4
    (GetModelViewProjection MatrixMult projectionMatrix tx ty tz rx ry) p
  = transformPoint4 projectionMatrix
      (transformPoint4 (GetModelViewMatrix MatrixMult tx ty tz rx ry) p).
Proof.
  intros HM LP.
  change (GetModelViewProjection MatrixMult projectionMatrix tx ty tz rx ry)
    with (MatrixMult projectionMatrix
            (GetModelViewMatrix MatrixMult tx ty tz rx ry)).
  pose proof (GetModelViewMatrix_product tx ty tz rx ry HM) as E.
  rewrite E. rewrite HM by first [assumption | reflexivity].
  list16 projectionMatrix. clear LP.
  destruct p as [[[x y] z] w].
  rewrite columnMajorProduct_entries.
  unfold transformPoint4, productEntry4, readNum. simpl.
  repeat apply (f_equal2 pair); ring.
Qed.
End ModelViewReals.

(** ** [composite] *)

Section CompositeAny.
Context {A : Type} `{Number A} `{NotANumber A} `{ByteMax A}.
Variable toElement : A -> A.
Variables (bgImg fgImg : Image.t A) (fgOpac : A) (fgPos : Point.t).

Abbreviation step := (fun d (yx : nat * nat) =>
  blendPixel toElement bgImg fgImg fgOpac fgPos d yx.1 yx.2).

Lemma length_blendPixel d y x :
  length (blendPixel toElement bgImg fgImg fgOpac fgPos d y x) = length d.
Proof.
  unfold blendPixel. cbv zeta.
  destruct (outOfBounds _ _ _); [reflexivity|].
  destruct (nltb _ _); [|reflexivity].
  now rewrite !length_insert.
Qed.

Lemma blendPixel_frame d y x i :
  ~ under bgImg fgPos (y, x) i ->
  blendPixel toElement bgImg fgImg fgOpac fgPos d y x !! i = d !! i.
Proof.
  unfold under, blendPixel. cbv zeta. simpl. intros Hi.
  destruct (outOfBounds _ _ _) eqn:Hout; [reflexivity|].
  destruct (nltb _ _); [|reflexivity].
  set (b := bgIndexOf _ _ _) in *.
  assert (Hb : ~ (b <= i < b + 4)%nat) by tauto.
  now rewrite !list_lookup_insert_ne by lia.
Qed.

Lemma readNum_lookup (d d' : list A) i :
  d !! i = d' !! i -> readNum d i = readNum d' i.
Proof. unfold readNum. now intros ->. Qed.

Lemma pixelAt_lookup (d d' : list A) i :
  (forall j, (i <= j < i + 4)%nat -> d !! j = d' !! j) ->
  pixelAt d i = pixelAt d' i.
Proof.
  intros Hj. unfold pixelAt.
  rewrite (readNum_lookup d d' i), (readNum_lookup d d' (i + 1)),
    (readNum_lookup d d' (i + 2)), (readNum_lookup d d' (i + 3))
    by (apply Hj; lia).
  reflexivity.
Qed.

Lemma pixelAt_insert4 (d : list A) i a b c e :
  (i + 3 < length d)%nat ->
  pixelAt (<[(i + 3)%nat := e]>
             (<[(i + 2)%nat := c]> (<[(i + 1)%nat := b]> (<[i := a]> d)))) i
  = (a, b, c, e).
Proof.
  intros L. unfold pixelAt, readNum.
  repeat (rewrite ?list_lookup_insert_ne by lia;
          rewrite list_lookup_insert_eq by (rewrite ?length_insert; lia)).
  reflexivity.
Qed.

Lemma blendPixel_pixel d y x :
  let bgX := (Point.x fgPos + Z.of_nat x)%Z in
  let bgY := (Point.y fgPos + Z.of_nat y)%Z in
  outOfBounds bgImg bgX bgY = false ->
  (bgIndexOf bgImg bgX bgY + 3 < length d)%nat ->
  pixelAt (blendPixel toElement bgImg fgImg fgOpac fgPos d y x)
          (bgIndexOf bgImg bgX bgY)
  = over toElement fgOpac
      (pixelAt (Image.data fgImg) (fgIndexOf fgImg x y))
      (pixelAt d (bgIndexOf bgImg bgX bgY)).
Proof.
  intros bgX bgY Hin Hlen. unfold blendPixel, over. cbv zeta.
  fold bgX bgY. rewrite Hin.
  set (i := bgIndexOf bgImg bgX bgY) in *.
  unfold pixelAt at 2 3.
  destruct (nltb _ _); [|reflexivity].
  now apply pixelAt_insert4.
Qed.

(** *** The loops as one fold over the foreground pixels *)

Lemma composite_fold :
  Image.data (composite toElement bgImg fgImg fgOpac fgPos)
  = foldl step (Image.data bgImg) (fgPixels fgImg).
Proof.
  unfold composite, fgPixels. simpl.
  generalize (Image.data bgImg) as d.
  induction (seq 0 (Image.height fgImg)) as [|y ys IH]; intros d;
    [reflexivity|].
  rewrite bind_cons, foldl_app, foldl_fmap. simpl. apply IH.
Qed.

Lemma length_fold ps d : length (foldl step d ps) = length d.
Proof.
  revert d. induction ps as [|q ps IH]; intros d; simpl; [reflexivity|].
  now rewrite IH, length_blendPixel.
Qed.

Lemma fold_frame ps d i :
  Forall (fun yx => ~ under bgImg fgPos yx i) ps ->
  foldl step d ps !! i = d !! i.
Proof.
  intros Hps. revert d.
  induction Hps as [|[y x] ps Hq _ IH]; intros d; simpl; [reflexivity|].
  rewrite IH. now apply blendPixel_frame.
Qed.

Lemma outOfBounds_false bgX bgY :
  outOfBounds bgImg bgX bgY = false <->
  (0 <= bgX < Z.of_nat (Image.width bgImg) /\
   0 <= bgY < Z.of_nat (Image.height bgImg))%Z.
Proof.
  unfold outOfBounds. rewrite !orb_false_iff.
  rewrite !Z.ltb_ge, !Z.geb_leb, !Z.leb_gt. lia.
Qed.

Lemma bgIndexOf_inj X Y X' Y' i :
  outOfBounds bgImg X Y = false ->
  outOfBounds bgImg X' Y' = false ->
  (bgIndexOf bgImg X Y <= i < bgIndexOf bgImg X Y + 4)%nat ->
  (bgIndexOf bgImg X' Y' <= i < bgIndexOf bgImg X' Y' + 4)%nat ->
  X = X' /\ Y = Y'.
Proof.
  unfold bgIndexOf. intros Hin Hin' Hi Hi'.
  apply outOfBounds_false in Hin, Hin'.
  set (W := Z.of_nat (Image.width bgImg)) in *.
  assert (HYW : (0 <= Y * W)%Z) by nia.
  assert (HYW' : (0 <= Y' * W)%Z) by nia.
  assert (E : (Y * W + X = Y' * W + X')%Z) by lia.
  assert (EY : Y = Y') by nia.
  split; [nia|assumption].
Qed.

Lemma under_inj yx yx' i :
  under bgImg fgPos yx i -> under bgImg fgPos yx' i -> yx = yx'.
Proof.
  destruct yx as [y x], yx' as [y' x']. unfold under. simpl.
  intros [Hin Hi] [Hin' Hi'].
  destruct (bgIndexOf_inj _ _ _ _ i Hin Hin' Hi Hi') as [EX EY].
  f_equal; lia.
Qed.

Lemma bgIndexOf_in_range X Y :
  wellSized bgImg ->
  outOfBounds bgImg X Y = false ->
  (bgIndexOf bgImg X Y + 3 < length (Image.data bgImg))%nat.
Proof.
  unfold wellSized, bgIndexOf. intros -> Hin.
  apply outOfBounds_false in Hin.
  set (W := Z.of_nat (Image.width bgImg)) in *.
  set (Hh := Z.of_nat (Image.height bgImg)) in *.
  assert (HYW : (0 <= Y * W)%Z) by nia.
  assert (Hle : (Y * W + X + 1 <= Hh * W)%Z) by nia.
  apply Nat2Z.inj_lt. rewrite Nat2Z.inj_add, Z2Nat.id by lia.
  rewrite !Nat2Z.inj_mul. fold W Hh. lia.
Qed.

Lemma elem_of_fgPixels y x :
  (y, x) ∈ fgPixels fgImg <->
  (y < Image.height fgImg)%nat /\ (x < Image.width fgImg)%nat.
Proof.
  unfold fgPixels. rewrite list_elem_of_bind. split.
  - intros (y' & Hx & Hy).
    apply list_elem_of_fmap in Hx as (x' & E & Hx). injection E as -> ->.
    apply elem_of_seq in Hx, Hy. lia.
  - intros [Hy Hx]. exists y. split.
    + apply list_elem_of_fmap. exists x. split; [reflexivity|].
      apply elem_of_seq. lia.
    + apply elem_of_seq. lia.
Qed.

Lemma NoDup_fgPixels : NoDup (fgPixels fgImg).
Proof.
  unfold fgPixels. apply NoDup_bind.
  - intros y1 y2 [y x] _ _ Hy1 Hy2.
    apply list_elem_of_fmap in Hy1 as (x1 & E1 & _).
    apply list_elem_of_fmap in Hy2 as (x2 & E2 & _). congruence.
  - intros y _. apply NoDup_fmap_2; [|apply NoDup_seq].
    intros x1 x2 E. congruence.
  - apply NoDup_seq.
Qed.

Lemma fold_pixel ps d yx :
  NoDup ps ->
  yx ∈ ps ->
  let bgX := (Point.x fgPos + Z.of_nat yx.2)%Z in
  let bgY := (Point.y fgPos + Z.of_nat yx.1)%Z in
  outOfBounds bgImg bgX bgY = false ->
  (bgIndexOf bgImg bgX bgY + 3 < length d)%nat ->
  pixelAt (foldl step d ps) (bgIndexOf bgImg bgX bgY)
  = over toElement fgOpac
      (pixelAt (Image.data fgImg) (fgIndexOf fgImg yx.2 yx.1))
      (pixelAt d (bgIndexOf bgImg bgX bgY)).
Proof.
  intros Hnd Hin bgX bgY Hb. revert d.
  induction ps as [|q ps IH]; intros d Hlen; [inversion Hin|].
  apply NoDup_cons in Hnd as [Hq Hnd]. simpl.
  assert (Hdisj : forall q', q' <> yx -> forall j,
            (bgIndexOf bgImg bgX bgY <= j < bgIndexOf bgImg bgX bgY + 4)%nat ->
            ~ under bgImg fgPos q' j).
  { intros q' Hne j Hj Hu. apply Hne.
    apply (under_inj q' yx j Hu). split; assumption. }
  apply elem_of_cons in Hin as [->|Hin].
  - transitivity (pixelAt (step d q) (bgIndexOf bgImg bgX bgY)).
    + apply pixelAt_lookup. intros j Hj. apply fold_frame.
      apply Forall_forall. intros q' Hq'. apply Hdisj; [|assumption].
      intros ->. contradiction.
    + destruct q as [y x]. now apply blendPixel_pixel.
  - rewrite IH by (assumption || (rewrite length_blendPixel; assumption)).
    rewrite (pixelAt_lookup (step d q) d); [reflexivity|].
    intros j Hj. destruct q as [y x]. simpl. apply blendPixel_frame.
    apply Hdisj; [|assumption]. intros E. apply Hq. now rewrite E.
Qed.

Lemma fold_out_of_bounds ps d :
  Forall (fun yx => outOfBounds bgImg (Point.x fgPos + Z.of_nat yx.2)
                      (Point.y fgPos + Z.of_nat yx.1) = true) ps ->
  foldl step d ps = d.
Proof.
  induction 1 as [|[y x] ps Hq _ IH]; simpl; [reflexivity|].
  simpl in Hq.
  assert (E : blendPixel toElement bgImg fgImg fgOpac fgPos d y x = d)
    by (unfold blendPixel; cbv zeta; now rewrite Hq).
  rewrite E. exact IH.
Qed.

(** X20: [composite] keeps the size of the background, and leaves the
    four numbers of every background pixel that is not under the
    foreground rectangle as they were. *)
Theorem composite_outside_foreground X Y c :
  wellSized bgImg ->
  let r := composite toElement bgImg fgImg fgOpac fgPos in
  Image.width r = Image.width bgImg /\
  Image.height r = Image.height bgImg /\
  length (Image.data r) = length (Image.data bgImg) /\
  (outOfBounds bgImg X Y = false ->
   (X < Point.x fgPos \/ Point.x fgPos + Z.of_nat (Image.width fgImg) <= X \/
    Y < Point.y fgPos \/ Point.y fgPos + Z.of_nat (Image.height fgImg) <= Y)%Z ->
   (c < 4)%nat ->
   Image.data r !! (bgIndexOf bgImg X Y + c)%nat
   = Image.data bgImg !! (bgIndexOf bgImg X Y + c)%nat).
Proof.
  intros _ r. subst r. rewrite composite_fold.
  split; [reflexivity|]. split; [reflexivity|].
  split; [apply length_fold|].
  intros Hin Hout Hc. apply fold_frame.
  apply Forall_forall. intros [y x] Hyx [Hin' Hi]. simpl in *.
  apply elem_of_fgPixels in Hyx as [Hy Hx].
  destruct (bgIndexOf_inj X Y _ _ (bgIndexOf bgImg X Y + c)%nat Hin Hin')
    as [EX EY]; [lia|exact Hi|]. lia.
Qed.

(** X21: after [composite], a background pixel under foreground pixel
    [(x, y)] holds the blend of lines 523-544 of that foreground pixel
    with the original background pixel: every covered pixel is blended
    exactly once. *)
Theorem composite_covered_pixel x y :
  wellSized bgImg ->
  (x < Image.width fgImg)%nat ->
  (y < Image.height fgImg)%nat ->
  let bgX := (Point.x fgPos + Z.of_nat x)%Z in
  let bgY := (Point.y fgPos + Z.of_nat y)%Z in
  outOfBounds bgImg bgX bgY = false ->
  pixelAt (Image.data (composite toElement bgImg fgImg fgOpac fgPos))
          (bgIndexOf bgImg bgX bgY)
  = over toElement fgOpac
      (pixelAt (Image.data fgImg) (fgIndexOf fgImg x y))
      (pixelAt (Image.data bgImg) (bgIndexOf bgImg bgX bgY)).
Proof.
  intros Hws Hx Hy bgX bgY Hin. rewrite composite_fold.
  apply (fold_pixel (fgPixels fgImg) (Image.data bgImg) (y, x)).
  - apply NoDup_fgPixels.
  - now apply elem_of_fgPixels.
  - exact Hin.
  - now apply bgIndexOf_in_range.
Qed.

(** X24: a foreground placed entirely outside the background changes
    nothing. *)
Theorem composite_off_screen :
  (Z.of_nat (Image.width bgImg) <= Point.x fgPos \/
   Point.x fgPos + Z.of_nat (Image.width fgImg) <= 0 \/
   Z.of_nat (Image.height bgImg) <= Point.y fgPos \/
   Point.y fgPos + Z.of_nat (Image.height fgImg) <= 0)%Z ->
  composite toElement bgImg fgImg fgOpac fgPos = bgImg.
Proof.
  intros Hoff.
  assert (E : Image.data (composite toElement bgImg fgImg fgOpac fgPos)
              = Image.data bgImg).
  { rewrite composite_fold. apply fold_out_of_bounds.
    apply Forall_forall. intros [y x] Hyx. simpl.
    apply elem_of_fgPixels in Hyx as [Hy Hx].
    destruct (outOfBounds _ _ _) eqn:Hin; [reflexivity|].
    apply outOfBounds_false in Hin. lia. }
  unfold composite in *. simpl in E. rewrite E. now destruct bgImg.
Qed.
End CompositeAny.

Section CompositeReals.
Context `{NotANumber R}.
Variable toElement : R -> R.
Local Open Scope R_scope.

Lemma over_transparent fg (bg : R * R * R * R) :
  toElement bg.1.1.1 = bg.1.1.1 -> toElement bg.1.1.2 = bg.1.1.2 ->
  toElement bg.1.2 = bg.1.2 -> toElement bg.2 = bg.2 ->
  over toElement 0 fg bg = bg.
Proof.
  destruct fg as [[[fR fG] fB] fA], bg as [[[bR bG] bB] bA]. simpl.
  intros ER EG EB EA. unfold over, n255, R_255. simpl.
  unfold Rltb. destruct (Rlt_dec 0 _) as [Hpos|Hpos]; [|reflexivity].
  assert (HbA : 0 < bA) by lra.
  repeat apply (f_equal2 pair).
  - rewrite <- ER at 2. f_equal. field. lra.
  - rewrite <- EG at 2. f_equal. field. lra.
  - rewrite <- EB at 2. f_equal. field. lra.
  - rewrite <- EA at 2. f_equal. field.
Qed.

Lemma over_opaque fR fG fB (bg : R * R * R * R) :
  over toElement 1 (fR, fG, fB, 255) bg
  = (toElement fR, toElement fG, toElement fB, toElement 255).
Proof.
  destruct bg as [[[bR bG] bB] bA]. unfold over, n255, R_255. simpl.
  rewrite Rltb_true by (unfold Rdiv; nra).
  repeat apply (f_equal2 pair); f_equal; field.
Qed.

Lemma lookup_readNum (d : list R) i :
  (i < length d)%nat -> d !! i = Some (readNum d i).
Proof.
  intros L. unfold readNum.
  now destruct (lookup_lt_is_Some_2 d i L) as [a ->].
Qed.

Lemma blendPixel_transparent (bgImg fgImg : Image.t R) fgPos d y x :
  length d = length (Image.data bgImg) ->
  wellSized bgImg ->
  Forall (fun v => toElement v = v) d ->
  blendPixel toElement bgImg fgImg 0 fgPos d y x = d.
Proof.
  intros Ld Hws Hfix. apply list_eq. intros j.
  set (X := (Point.x fgPos + Z.of_nat x)%Z).
  set (Y := (Point.y fgPos + Z.of_nat y)%Z).
  destruct (outOfBounds bgImg X Y) eqn:Hin.
  { apply blendPixel_frame. unfold under. simpl. fold X Y. rewrite Hin.
    intros [? _]. discriminate. }
  pose proof (bgIndexOf_in_range bgImg _ _ Hws Hin) as Hi.
  rewrite <- Ld in Hi.
  pose proof (blendPixel_pixel toElement bgImg fgImg 0 fgPos d y x Hin Hi)
    as Hpx. fold X Y in Hpx.
  set (i := bgIndexOf bgImg X Y) in *.
  rewrite Forall_lookup in Hfix.
  rewrite over_transparent in Hpx
    by (simpl; eapply Hfix; apply lookup_readNum; lia).
  destruct (decide (i <= j < i + 4)%nat) as [Hj|Hj].
  - unfold pixelAt in Hpx. injection Hpx as E0 E1 E2 E3.
    rewrite !lookup_readNum by (rewrite ?length_blendPixel; lia).
    f_equal.
    assert (j = i \/ j = i + 1 \/ j = i + 2 \/ j = i + 3)%nat
      as [->|[->|[->| ->]]] by lia; assumption.
  - apply blendPixel_frame. unfold under. simpl. fold X Y. fold i. tauto.
Qed.

(** X22: over the reals, with opacity 0 the background is returned as it
    was, provided its numbers are ones the array stores unchanged. *)
Theorem composite_transparent (bgImg fgImg : Image.t R) fgPos :
  wellSized bgImg ->
  wellSized fgImg ->
  Forall (fun v => toElement v = v) (Image.data bgImg) ->
  composite toElement bgImg fgImg 0 fgPos = bgImg.
Proof.
  intros Hbg Hfg Hfix.
  assert (E : Image.data (composite toElement bgImg fgImg 0 fgPos)
              = Image.data bgImg).
  { rewrite composite_fold.
    induction (fgPixels fgImg) as [|[y x] ps IH]; simpl; [reflexivity|].
    now rewrite blendPixel_transparent. }
  unfold composite in *. simpl in E. rewrite E. now destruct bgImg.
Qed.

(** X23: over the reals, with opacity 1 a foreground pixel of alpha 255
    replaces the background pixel under it. *)
Theorem composite_opaque (bgImg fgImg : Image.t R) fgPos x y fR fG fB :
  wellSized bgImg ->
  wellSized fgImg ->
  (x < Image.width fgImg)%nat ->
  (y < Image.height fgImg)%nat ->
  let bgX := (Point.x fgPos + Z.of_nat x)%Z in
  let bgY := (Point.y fgPos + Z.of_nat y)%Z in
  outOfBounds bgImg bgX bgY = false ->
  pixelAt (Image.data fgImg) (fgIndexOf fgImg x y) = (fR, fG, fB, 255) ->
  pixelAt (Image.data (composite toElement bgImg fgImg 1 fgPos))
          (bgIndexOf bgImg bgX bgY)
  = (toElement fR, toElement fG, toElement fB, toElement 255).
Proof.
  intros Hbg Hfg Hx Hy bgX bgY Hin Hpx. rewrite composite_fold.
  rewrite (fold_pixel toElement bgImg fgImg 1 fgPos (fgPixels fgImg)
             (Image.data bgImg) (y, x)).
  - cbn [fst snd]. rewrite Hpx. apply over_opaque.
  - apply NoDup_fgPixels.
  - now apply elem_of_fgPixels.
  - exact Hin.
  - now apply bgIndexOf_in_range.
Qed.
End CompositeReals.

(** ** Instances of the further properties *)

Section Instances.
#[local] Existing Instance noMissingRead.
Local Open Scope R_scope.

Lemma innerPair_apart :
  Vec3.len (Vec3.sub (v3 0.5 0 0) (v3 (-0.5) 0 0)) = 1.
Proof.
  unfold Vec3.len, Vec3.dot; simpl.
  match goal with |- sqrt ?a = _ => replace a with 1 by lra end.
  apply sqrt_1.
Qed.

(** Scaling, then shifting, the point [(1, 1)]. *)
Lemma ApplyTransform_applies_trans1_then_trans2_witness :
  transformPoint (ApplyTransform scale2 shift34) (1, 1, 1)
  = transformPoint shift34 (transformPoint scale2 (1, 1, 1)).
Proof.
  apply (ApplyTransform_applies_trans1_then_trans2 scale2 shift34 (1, 1, 1));
    reflexivity.
Defined.

Lemma GetTransform_identity_witness :
  GetTransform 0 0 0 1 = identity3 /\
  ApplyTransform shift34 (GetTransform 0 0 0 1) = shift34 /\
  ApplyTransform (GetTransform 0 0 0 1) shift34 = shift34.
Proof. apply (GetTransform_identity shift34). reflexivity. Defined.

Lemma ApplyTransform_assoc_witness :
  ApplyTransform (ApplyTransform scale2 shift34) scale2
  = ApplyTransform scale2 (ApplyTransform shift34 scale2).
Proof. apply (ApplyTransform_assoc scale2 shift34 scale2); reflexivity. Defined.

Lemma GetTransform_inverse_witness :
  let m := GetTransform 3 4 30 2 in
  let inv :=
    ApplyTransform
      (ApplyTransform (GetTransform (- 3) (- 4) 0 1)
                      (GetTransform 0 0 (- 30) 1))
      (GetTransform 0 0 0 (/ 2)) in
  ApplyTransform m inv = identity3 /\ ApplyTransform inv m = identity3.
Proof. apply (GetTransform_inverse 3 4 30 2). lra. Defined.

Lemma ApplyTransform_affine_witness :
  let res := ApplyTransform scale2 shift34 in
  res !! 2%nat = Some 0 /\ res !! 5%nat = Some 0 /\ res !! 8%nat = Some 1.
Proof.
  apply (ApplyTransform_affine scale2 shift34);
    [reflexivity | reflexivity | |]; repeat split; reflexivity.
Defined.

(** The transformation of an empty array and nine ones. *)
Lemma ApplyTransform_missing_entry_witness :
  length (ApplyTransform [] (replicate 9 PrimFloat.one)) = 9%nat /\
  ApplyTransform [] (replicate 9 PrimFloat.one) !! (0 * 3 + 0)%nat
  = Some PrimFloat.nan.
Proof.
  apply (ApplyTransform_missing_entry [] (replicate 9 PrimFloat.one) 0 0 0);
    [lia | lia | lia |]. left. simpl. lia.
Defined.

(** The inner pair at rest with its spring relaxed. *)
Lemma rest_configuration_is_fixed_witness :
  exists s',
    SimTimeStep 0.1 innerPair atRest [relaxedSpring] 5 1 1 Vec3.zero 0.5
    = Ret tt s' /\
    positions s' = innerPair /\ velocities s' = atRest.
Proof.
  apply (rest_configuration_is_fixed 0.1 innerPair atRest [relaxedSpring]
           5 1 1 0.5).
  - lra.
  - reflexivity.
  - repeat constructor; simpl; lra.
  - repeat constructor.
  - repeat constructor. exists (v3 (-0.5) 0 0), (v3 0.5 0 0).
    split; [reflexivity|]. split; [reflexivity|]. apply innerPair_apart.
Defined.

Lemma zero_time_step_moves_nothing_witness :
  exists s',
    SimTimeStep 0 innerPair [v3 1 0 0; v3 0 1 0] [compressedSpring] 1 0 1
      (v3 0 0 (-1)) 0.5 = Ret tt s' /\
    positions s' = innerPair /\ velocities s' = [v3 1 0 0; v3 0 1 0].
Proof.
  apply (zero_time_step_moves_nothing innerPair [v3 1 0 0; v3 0 1 0]
           [compressedSpring] 1 0 1 (v3 0 0 (-1)) 0.5).
  - lra.
  - reflexivity.
  - repeat constructor; simpl; lra.
  - repeat constructor.
Defined.

Lemma no_contact_is_symplectic_euler_witness :
  exists F s',
    springLoop 1 0 innerPair atRest [compressedSpring]
      (gravityForces 1 (v3 0 0 (-1)) (length innerPair)) = Some F /\
    SimTimeStep 0.1 innerPair atRest [compressedSpring] 1 0 1 (v3 0 0 (-1))
      0.5 = Ret tt s' /\
    forall i Fi v p,
      F !! i = Some Fi -> atRest !! i = Some v -> innerPair !! i = Some p ->
      let v' := Vec3.inc v (Vec3.mul (Vec3.div Fi 1) 0.1) in
      velocities s' !! i = Some v' /\
      positions s' !! i = Some (Vec3.inc p (Vec3.mul v' 0.1)).
Proof.
  apply (no_contact_is_symplectic_euler 0.1 innerPair atRest
           [compressedSpring] 1 0 1 (v3 0 0 (-1)) 0.5); [reflexivity|].
  unfold noContact, afterIntegration. rewrite innerPair_forces. simpl.
  repeat constructor; simpl; lra.
Defined.

(** A particle past the wall [z = 1], moving outwards at speed 2. *)
Lemma collision_never_speeds_up_witness :
  exists s' p' v',
    collideStep 0.5 0 (mkSim [v3 0 0 1.5] [v3 0 0 2] [] [v3 0 0 0])
    = Ret tt s' /\
    positions s' !! 0%nat = Some p' /\
    velocities s' !! 0%nat = Some v' /\
    inBox p' /\
    forall d, Rabs (Vec3.get d v') <= Rabs (Vec3.get d (v3 0 0 2)).
Proof.
  apply (collision_never_speeds_up 0.5 0
           (mkSim [v3 0 0 1.5] [v3 0 0 2] [] [v3 0 0 0])
           (v3 0 0 1.5) (v3 0 0 2)); [lra | reflexivity | reflexivity].
Defined.

(** A spring stretched from rest length 1 to length 2. *)
Lemma hooke_force_along_spring_witness :
  0 < Vec3.dot (springForce 3 0 (v3 0 0 0) (v3 2 0 0) (v3 0 0 0) (v3 0 0 0) 1)
               (Vec3.sub (v3 2 0 0) (v3 0 0 0)).
Proof.
  apply (proj1 (proj2 (hooke_force_along_spring 3 (v3 0 0 0) (v3 2 0 0)
                         (v3 0 0 0) (v3 0 0 0) 1))); [lra|].
  assert (HL : Vec3.len (Vec3.sub (v3 2 0 0) (v3 0 0 0)) = 2).
  { unfold Vec3.len, Vec3.dot; simpl.
    match goal with |- sqrt ?a = _ => replace a with (2 * 2) by lra end.
    apply sqrt_square. lra. }
  rewrite HL. lra.
Defined.

Lemma damping_dissipates_witness :
  let f := springForce 0 1 (v3 0 0 0) (v3 1 0 0) (v3 0 0 0) (v3 1 0 0) 1 in
  Vec3.dot f (v3 0 0 0) + Vec3.dot (Vec3.mul f (-1)) (v3 1 0 0) <= 0.
Proof.
  apply (damping_dissipates 1 (v3 0 0 0) (v3 1 0 0) (v3 0 0 0) (v3 1 0 0) 1).
  lra.
Defined.

(** Two particles and one velocity. *)
Lemma velocities_shorter_than_positions_witness :
  let F := gravityForces 1 (v3 0 0 (-1)) 2 in
  let V1 := integrateVs 0.1 1 F [v3 0 0 0] in
  SimTimeStep 0.1 innerPair [v3 0 0 0] [] 1 0 1 (v3 0 0 (-1)) 0.5
  = Throw (mkSim (integratePs 0.1 V1 innerPair ++ drop 1 innerPair) V1 [] F).
Proof.
  apply (velocities_shorter_than_positions (0.1 : R) innerPair [v3 0 0 0] []
           1 0 1 (v3 0 0 (-1)) 0.5 (gravityForces 1 (v3 0 0 (-1)) 2));
    [simpl; lia | reflexivity].
Defined.

(** One particle whose x is NaN. *)
Lemma nan_position_stays_nan_witness :
  exists s' p',
    SimTimeStep PrimFloat.one
      [Vec3.mk PrimFloat.nan PrimFloat.zero PrimFloat.zero]
      [Vec3.mk PrimFloat.zero PrimFloat.zero PrimFloat.zero] []
      PrimFloat.one PrimFloat.zero PrimFloat.one
      (Vec3.mk PrimFloat.zero PrimFloat.zero PrimFloat.zero) PrimFloat.one
    = Ret tt s' /\
    positions s' !! 0%nat = Some p' /\
    Vec3.get Vec3.dx p' = PrimFloat.nan.
Proof.
  apply (nan_position_stays_nan PrimFloat.one
           [Vec3.mk PrimFloat.nan PrimFloat.zero PrimFloat.zero]
           [Vec3.mk PrimFloat.zero PrimFloat.zero PrimFloat.zero] []
           PrimFloat.one PrimFloat.zero PrimFloat.one
           (Vec3.mk PrimFloat.zero PrimFloat.zero PrimFloat.zero)
           PrimFloat.one
           (gravityForces PrimFloat.one
              (Vec3.mk PrimFloat.zero PrimFloat.zero PrimFloat.zero) 1)
           0 (Vec3.mk PrimFloat.nan PrimFloat.zero PrimFloat.zero) Vec3.dx);
    reflexivity.
Defined.

(** With the product itself for [MatrixMult]. *)
Lemma columnMajorProduct_multiplies : multiplies columnMajorProduct.
Proof. intros a b _ _. reflexivity. Qed.

Lemma GetModelViewMatrix_rotates_then_translates_witness :
  transformPoint4 (GetModelViewMatrix columnMajorProduct 1 2 3 0 PI) (1, 0, 0, 1)
  = let x1 := cos PI * 1 + sin PI * 0 in
    let z1 := - sin PI * 1 + cos PI * 0 in
    let y2 := cos 0 * 0 - sin 0 * z1 in
    let z2 := sin 0 * 0 + cos 0 * z1 in
    (x1 + 1, y2 + 2, z2 + 3, 1).
Proof.
  apply (GetModelViewMatrix_rotates_then_translates columnMajorProduct
           1 2 3 0 PI 1 0 0).
  exact columnMajorProduct_multiplies.
Defined.

Lemma GetModelViewMatrix_rigid_witness :
  let m := GetModelViewMatrix columnMajorProduct 1 2 3 0 PI in
  dist2 (transformPoint4 m (1, 0, 0, 1)) (transformPoint4 m (0, 1, 0, 1))
  = dist2 (1, 0, 0, 1) (0, 1, 0, 1).
Proof.
  apply (GetModelViewMatrix_rigid columnMajorProduct 1 2 3 0 PI 1 0 0 0 1 0).
  exact columnMajorProduct_multiplies.
Defined.

Lemma GetModelViewProjection_projects_last_witness :
  let projection := [1; 0; 0; 0; 0; 1; 0; 0; 0; 0; 1; 1; 0; 0; 0; 0] in
  transformPoint4
    (GetModelViewProjection columnMajorProduct projection 1 2 3 0 PI)
    (1, 0, 0, 1)
  = transformPoint4 projection
      (transformPoint4 (GetModelViewMatrix columnMajorProduct 1 2 3 0 PI)
         (1, 0, 0, 1)).
Proof.
  apply (GetModelViewProjection_projects_last columnMajorProduct
           [1; 0; 0; 0; 0; 1; 0; 0; 0; 0; 1; 1; 0; 0; 0; 0] 1 2 3 0 PI
           (1, 0, 0, 1)); [exact columnMajorProduct_multiplies | reflexivity].
Defined.

(** The second background pixel is not under the one-pixel foreground. *)
Lemma composite_outside_foreground_witness :
  let r := composite (fun v => v) twoPixels (onePixel 255) 0.5 topLeft in
  Image.width r = 2%nat /\
  Image.height r = 1%nat /\
  length (Image.data r) = 8%nat /\
  Image.data r !! (bgIndexOf twoPixels 1 0 + 3)%nat
  = Image.data twoPixels !! (bgIndexOf twoPixels 1 0 + 3)%nat.
Proof.
  destruct (composite_outside_foreground (fun v => v) twoPixels (onePixel 255)
              0.5 topLeft 1 0 3) as (Hw & Hh & Hl & Hd); [reflexivity|].
  repeat split; try assumption.
  apply Hd; [reflexivity | simpl; lia | lia].
Defined.

Lemma composite_covered_pixel_witness :
  pixelAt (Image.data (composite (fun v => v) twoPixels (onePixel 255) 0.5
                         topLeft))
          (bgIndexOf twoPixels 0 0)
  = over (fun v => v) 0.5
      (pixelAt (Image.data (onePixel 255)) (fgIndexOf (onePixel 255) 0 0))
      (pixelAt (Image.data twoPixels) (bgIndexOf twoPixels 0 0)).
Proof.
  apply (composite_covered_pixel (fun v => v) twoPixels (onePixel 255) 0.5
           topLeft 0 0); [reflexivity | simpl; lia | simpl; lia | reflexivity].
Defined.

Lemma composite_off_screen_witness :
  composite (fun v => v) twoPixels (onePixel 255) 0.5 (Point.mk 2 0)
  = twoPixels.
Proof.
  apply (composite_off_screen (fun v => v) twoPixels (onePixel 255) 0.5
           (Point.mk 2 0)). left. simpl. lia.
Defined.

Lemma composite_transparent_witness :
  composite (fun v => v) twoPixels (onePixel 255) 0 topLeft = twoPixels.
Proof.
  apply (composite_transparent (fun v => v) twoPixels (onePixel 255) topLeft);
    [reflexivity | reflexivity |]. repeat constructor.
Defined.

Lemma composite_opaque_witness :
  pixelAt (Image.data (composite (fun v => v) twoPixels (onePixel 255) 1
                         topLeft))
          (bgIndexOf twoPixels 0 0)
  = (200, 100, 0, 255).
Proof.
  apply (composite_opaque (fun v => v) twoPixels (onePixel 255) topLeft 0 0
           200 100 0);
    [reflexivity | reflexivity | simpl; lia | simpl; lia | reflexivity
    | reflexivity].
Defined.
End Instances.

(** ** The scenes in binary64 *)

Example scaleThenShift_binary64 :
  Binary64Scenes.scaleThenShift = Binary64Scenes.scaleThenShiftResult.
Proof. vm_compute. reflexivity. Qed.

(** A foreground pixel at half opacity over an opaque background pixel:
    the mean of the two colours. *)
Example halfBlend_binary64 :
  Binary64Scenes.halfBlend = Binary64Scenes.halfBlendResult.
Proof. vm_compute. reflexivity. Qed.

(** In binary64 a call on finite numbers can overflow: it completes, and
    leaves coordinates that are NaN.  The invariant of the cube is one of
    exact arithmetic. *)
Example overflow_binary64 : Binary64Scenes.overflow = (true, false).
Proof. vm_compute. reflexivity. Qed.
